(** * Tox Qt GUI core ([src/core.cpp]): message chunking, identifier codec,
      connectivity edge detection, friend-list loading and status mapping.

    Conventions of the embedding.
    - A [QByteArray] is a [list Z] of byte values [0..255]; a C [int] is a
      [Z].  The indices and lengths the chunker computes are bounded by the
      size of the array plus [TOX_MAX_MESSAGE_LENGTH], so no [int] wraps as
      long as that sum fits an [int].
    - A [QString] holding text is a list of Unicode scalar values (the
      well-formed UTF-16 [QString]s are exactly those); a [QString] holding a
      hexadecimal identifier is a list of character codes.
    - Constants of [tox.h] ([TOX_MAX_MESSAGE_LENGTH], [TOX_CLIENT_ID_SIZE],
      [TOX_USERSTATUS_*]) are parameters of the definitions that use them.
    - [emit] appends to a trace: every slot that emits returns the list of the
      signals it emitted, in order. *)

From Stdlib Require Import String Ascii ZArith List Bool Lia.
Import ListNotations.
Local Open Scope Z_scope.

(** ** Qt primitives *)

Module Qt.

Definition QByteArray := list Z.

Definition byte_ok (b : Z) : Prop := 0 <= b < 256.

Definition size (a : QByteArray) : Z := Z.of_nat (List.length a).

(** [byteArray[i]] on a non-const array: a read past the end yields 0
    ([QByteRef]); a negative index is outside the contract of the class and is
    given the same value here. *)
Definition at_ (a : QByteArray) (i : Z) : Z :=
  if i <? 0 then 0 else nth (Z.to_nat i) a 0.

(** [QByteArray(data + off, len)]: the [len] bytes from position [off]. *)
Definition mid (a : QByteArray) (off len : Z) : QByteArray :=
  firstn (Z.to_nat len) (skipn (Z.to_nat off) a).

(** *** UTF-8 *)

Definition scalar (c : Z) : Prop :=
  0 <= c < 55296 \/ 57344 <= c <= 1114111.

Definition QString := list Z.

Definition utf8_encode (c : Z) : QByteArray :=
  if c <? 128 then [c]
  else if c <? 2048 then [192 + c / 64; 128 + c mod 64]
  else if c <? 65536 then
    [224 + c / 4096; 128 + (c / 64) mod 64; 128 + c mod 64]
  else
    [240 + c / 262144; 128 + (c / 4096) mod 64; 128 + (c / 64) mod 64;
     128 + c mod 64].

(** [QString::toUtf8] *)
Definition toUtf8 (s : QString) : QByteArray := flat_map utf8_encode s.

Definition continuation (b : Z) : bool := (128 <=? b) && (b <? 192).

Definition scalarb (c : Z) : bool :=
  ((0 <=? c) && (c <? 55296)) || ((57344 <=? c) && (c <=? 1114111)).

(** Decoding of well-formed UTF-8; [None] stands for input that is not
    well-formed, where Qt substitutes replacement characters. *)
Fixpoint utf8_decode (a : QByteArray) : option QString :=
  match a with
  | [] => Some []
  | b0 :: r0 =>
    if (0 <=? b0) && (b0 <? 128) then option_map (cons b0) (utf8_decode r0)
    else if (192 <=? b0) && (b0 <? 224) then
      match r0 with
      | b1 :: r1 =>
        let c := (b0 - 192) * 64 + (b1 - 128) in
        if continuation b1 && (128 <=? c)
        then option_map (cons c) (utf8_decode r1) else None
      | _ => None
      end
    else if (224 <=? b0) && (b0 <? 240) then
      match r0 with
      | b1 :: b2 :: r2 =>
        let c := (b0 - 224) * 4096 + (b1 - 128) * 64 + (b2 - 128) in
        if continuation b1 && continuation b2 && (2048 <=? c) && scalarb c
        then option_map (cons c) (utf8_decode r2) else None
      | _ => None
      end
    else if (240 <=? b0) && (b0 <? 248) then
      match r0 with
      | b1 :: b2 :: b3 :: r3 =>
        let c := (b0 - 240) * 262144 + (b1 - 128) * 4096
                 + (b2 - 128) * 64 + (b3 - 128) in
        if continuation b1 && continuation b2 && continuation b3
           && (65536 <=? c) && scalarb c
        then option_map (cons c) (utf8_decode r3) else None
      | _ => None
      end
    else None
  end.

(** The UTF-8 form EF BB BF of the byte-order mark U+FEFF. *)
Definition startsWithBom (a : QByteArray) : bool :=
  match a with
  | b0 :: b1 :: b2 :: _ => (b0 =? 239) && (b1 =? 187) && (b2 =? 191)
  | _ => false
  end.

(** [QString::fromUtf8]: a byte-order mark at the very start of the input is
    skipped, the rest is decoded.  Every scalar value is decoded as itself,
    as Qt does from version 5.3 on (earlier versions replace the
    noncharacters, in [toUtf8] as well). *)
Definition fromUtf8 (a : QByteArray) : option QString :=
  if startsWithBom a then utf8_decode (skipn 3 a) else utf8_decode a.

(** A string literal as text (all its characters are below U+0100). *)
Definition text (s : string) : QString :=
  map (fun ch => Z.of_N (N_of_ascii ch)) (list_ascii_of_string s).

End Qt.
Import Qt.

(** ** Core::sendMessage *)

Section SendMessage.

Variable TOX_MAX_MESSAGE_LENGTH : Z.
Variable byteArray : QByteArray.

(** [static const char multibyteCodepoint = 1 << 7] and
    [multibyteCodepointStart = 1 << 6].  Whether [char] is signed or not, the
    conjunction [byteArray[i] & mask] is non-zero exactly when the masked bit
    of the byte is set. *)
Definition multibyteCodepoint : Z := Z.shiftl 1 7.
Definition multibyteCodepointStart : Z := Z.shiftl 1 6.

Definition masked (b mask : Z) : bool := negb (Z.land b mask =? 0).

(** [static const char *splitOn = " .,-"] *)
Definition splitOn : list Z := [32; 46; 44; 45].

(** The first [for] loop, started at [i] with [n] iterations left: the nearest
    byte at or before [i] that is not a continuation byte, or [-1]. *)
Fixpoint findCodepointStart (n : nat) (i : Z) : Z :=
  match n with
  | O => -1
  | S n' =>
    if masked (at_ byteArray i) multibyteCodepoint
       && negb (masked (at_ byteArray i) multibyteCodepointStart)
    then findCodepointStart n' (i - 1)
    else i
  end.

(** The second [for] loop with its inner loop over [splitOn]: one past the
    nearest single-byte split character at or before [i], or [-1]. *)
Fixpoint findSplit (n : nat) (i : Z) : Z :=
  match n with
  | O => -1
  | S n' =>
    if masked (at_ byteArray i) multibyteCodepoint
    then findSplit n' (i - 1)
    else if existsb (Z.eqb (at_ byteArray i)) splitOn
    then i + 1
    else findSplit n' (i - 1)
  end.

Definition lastCodepointStartAt (messageOffset : Z) : Z :=
  let absoluteMaxLength := TOX_MAX_MESSAGE_LENGTH + messageOffset in
  let absoluteMaxPosition := absoluteMaxLength - 1 in
  findCodepointStart 4 absoluteMaxPosition.

(** The lower, exclusive bound of the second loop. *)
Definition searchLimit (messageOffset : Z) : Z :=
  let absoluteMaxLength := TOX_MAX_MESSAGE_LENGTH + messageOffset in
  let absoluteMaxPosition := absoluteMaxLength - 1 in
  absoluteMaxPosition - Z.quot TOX_MAX_MESSAGE_LENGTH 4.

(** One iteration of the [while] body up to the label [found] and the test
    after it: the position the message is split at. *)
Definition splitPositionAt (messageOffset : Z) : Z :=
  let absoluteMaxLength := TOX_MAX_MESSAGE_LENGTH + messageOffset in
  let lastCodepointStart := lastCodepointStartAt messageOffset in
  let splitPosition :=
    findSplit (Z.to_nat (lastCodepointStart - searchLimit messageOffset))
              lastCodepointStart in
  if (splitPosition <=? messageOffset) || (splitPosition >? absoluteMaxLength)
  then lastCodepointStart
  else splitPosition.

(** What a run of [sendMessage] has done after at most [fuel] iterations of the
    [while] loop: the chunks handed to [tox_send_message] (each is also echoed,
    decoded, through [messageSentResult]) and whether the function returned. *)
Record Run := { sent : list QByteArray; returned : bool }.

Fixpoint sendLoop (fuel : nat) (messageOffset : Z) : Run :=
  let absoluteMaxLength := TOX_MAX_MESSAGE_LENGTH + messageOffset in
  if size byteArray >? absoluteMaxLength then
    match fuel with
    | O => {| sent := []; returned := false |}
    | S fuel' =>
      let splitPosition := splitPositionAt messageOffset in
      let rest := sendLoop fuel' splitPosition in
      {| sent := mid byteArray messageOffset (splitPosition - messageOffset)
                 :: sent rest;
         returned := returned rest |}
    end
  else if size byteArray - messageOffset >? 0 then
    {| sent := [mid byteArray messageOffset (size byteArray - messageOffset)];
       returned := true |}
  else {| sent := []; returned := true |}.

End SendMessage.

Definition sendMessage (TOX_MAX_MESSAGE_LENGTH : Z) (fuel : nat)
    (message : QString) : Run :=
  sendLoop TOX_MAX_MESSAGE_LENGTH (toUtf8 message) fuel 0.

(** The texts echoed by [messageSentResult], joined in order; [None] when some
    chunk is not well-formed UTF-8. *)
Fixpoint joinDecoded (chunks : list QByteArray) : option QString :=
  match chunks with
  | [] => Some []
  | c :: cs =>
    match fromUtf8 c, joinDecoded cs with
    | Some t, Some ts => Some (t ++ ts)
    | _, _ => None
    end
  end.

(** ** Identifier codec: Core::CData, Core::CUserId *)

Module Hex.

(** [QByteArray::toHex]: two lower-case digits per byte, high nibble first. *)
Definition hexDigit (n : Z) : Z := if n <=? 9 then n + 48 else n + 97 - 10.

Definition toHex (a : QByteArray) : QByteArray :=
  flat_map (fun b => [hexDigit (Z.land (Z.shiftr b 4) 15);
                      hexDigit (Z.land b 15)]) a.

(** The value of a hexadecimal digit, [-1] for any other character. *)
Definition fromHexDigit (ch : Z) : Z :=
  if (48 <=? ch) && (ch <=? 57) then ch - 48
  else if (97 <=? ch) && (ch <=? 102) then ch - 97 + 10
  else if (65 <=? ch) && (ch <=? 70) then ch - 65 + 10
  else -1.

(** The loop of [QByteArray::fromHex], which walks the input from its last
    character to its first: [pending] are the characters still to be read,
    last one first, [odd_digit] the flag of the same name, [res] the bytes
    written so far.  Characters that are no digits are skipped. *)
Fixpoint fromHexLoop (pending : list Z) (odd_digit : bool) (res : QByteArray)
  : QByteArray :=
  match pending with
  | [] => res
  | ch :: pending' =>
    let tmp := fromHexDigit ch in
    if tmp =? -1 then fromHexLoop pending' odd_digit res
    else if odd_digit then fromHexLoop pending' false (tmp :: res)
    else
      match res with
      | r :: res' =>
        fromHexLoop pending' true (Z.lor r (Z.shiftl tmp 4) :: res')
      | [] => fromHexLoop pending' true res
      end
  end.

Definition fromHex (hexEncoded : QByteArray) : QByteArray :=
  fromHexLoop (rev hexEncoded) true [].

(** [QString::toUpper] and [QString::toLower] on the letters of ASCII.  The
    case tables of the other characters are not modelled: [toUpper] is only
    applied to the output of [toHex], and no character outside ASCII has a
    hexadecimal digit as its lower case. *)
Definition upperChar (c : Z) : Z :=
  if (97 <=? c) && (c <=? 122) then c - 32 else c.

Definition lowerChar (c : Z) : Z :=
  if (65 <=? c) && (c <=? 90) then c + 32 else c.

Definition toUpper (s : QString) : QString := map upperChar s.

Definition toLower (s : QString) : QString := map lowerChar s.

(** [QString::toLatin1]: a character above U+00FF becomes a question mark. *)
Definition latin1Char (c : Z) : Z := if c <? 256 then c else 63.

Definition toLatin1 (s : QString) : QByteArray := map latin1Char s.

End Hex.
Import Hex.

Module CData.

(** [CData::toString(cData, cDataSize)] reads [cDataSize] bytes. *)
Definition toString (cData : QByteArray) (cDataSize : Z) : QString :=
  toUpper (toHex (firstn (Z.to_nat cDataSize) cData)).

(** [CData::fromString(data, cData)]: the bytes that [memcpy] writes to
    [cData]; the value returned is their number, as a [uint16_t]. *)
Definition fromString (data : QString) : QByteArray :=
  fromHex (toLatin1 (toLower data)).

(** An object of the class: the buffer, of which a byte never written is
    [None], and the size it reports. *)
Record t := { data : list (option Z); size_ : Z }.

(** The constructor [CData(data, byteSize)].  The buffer has [byteSize] bytes
    and [memcpy] copies every decoded byte into it, whatever [byteSize] is;
    [None] is the undefined behaviour of a copy that runs past the buffer. *)
Definition new (data : QString) (byteSize : Z) : option t :=
  let arr := fromString data in
  if size arr <=? byteSize then
    Some {| data := map Some arr
                    ++ repeat None (Z.to_nat (byteSize - size arr));
            size_ := size arr mod 65536 |}
  else None.

End CData.

Module CUserId.
Section WithSize.
Variable TOX_CLIENT_ID_SIZE : Z.
Definition new (userId : QString) : option CData.t :=
  CData.new userId TOX_CLIENT_ID_SIZE.
Definition toString (cUserId : QByteArray) : QString :=
  CData.toString cUserId TOX_CLIENT_ID_SIZE.
End WithSize.
End CUserId.

Module CString.

(** [CString::toString(cString, cStringSize)], the size being a [uint16_t]. *)
Definition toString (cString : QByteArray) (cStringSize : Z)
  : option QString :=
  fromUtf8 (firstn (Z.to_nat (cStringSize mod 65536)) cString).

(** [QString::length]: the number of UTF-16 code units, two for a scalar
    value above U+FFFF. *)
Definition length (string : QString) : Z :=
  fold_right (fun c n => (if c <? 65536 then 1 else 2) + n) 0 string.

(** [CString::fromString(string, cString)]: the bytes that [memcpy] writes to
    [cString]; the value returned is their number, as a [uint16_t]. *)
Definition fromString (string : QString) : QByteArray := toUtf8 string.

Record t := { cString : QByteArray; cStringSize : Z }.

(** The constructor [CString(string)]: a zero-filled buffer of
    [string.length() * MAX_SIZE_OF_UTF8_ENCODED_CHARACTER] bytes, into which
    the encoded text is copied; [None] is the undefined behaviour of a copy
    that runs past the buffer. *)
Definition new (MAX_SIZE_OF_UTF8_ENCODED_CHARACTER : Z) (string : QString)
  : option t :=
  let capacity := length string * MAX_SIZE_OF_UTF8_ENCODED_CHARACTER in
  let byteArray := fromString string in
  if size byteArray <=? capacity then
    Some {| cString := byteArray
                       ++ repeat 0 (Z.to_nat (capacity - size byteArray));
            cStringSize := size byteArray mod 65536 |}
  else None.

End CString.

(** ** Signals *)

Inductive Status := Online | Away | Busy | Offline.

Inductive Signal :=
| connected
| disconnected
| friendAdded (friendId : Z) (userId : QString)
| friendUsernameLoaded (friendId : Z) (username : option QString)
| friendStatusMessageLoaded (friendId : Z) (message : option QString)
| friendLastSeenChanged (friendId : Z) (secondsSinceEpoch : N)
| friendStatusChanged (friendId : Z) (status : Status).

(** ** Core::checkConnection *)

(** One call, given what [tox_isconnected] answers and the value of the static
    [isConnected]: the signals emitted and the new value of the static.  The
    two calls of [tox_isconnected] within one check get the same answer, as
    the engine does not run in between. *)
Definition checkConnection (tox_isconnected : Z) (isConnected : bool)
  : list Signal * bool :=
  if negb (tox_isconnected =? 0) && negb isConnected then ([connected], true)
  else if (tox_isconnected =? 0) && isConnected then ([disconnected], false)
  else ([], isConnected).

(** The connectivity checks of successive calls of [Core::process]. *)
Fixpoint checkConnections (answers : list Z) (isConnected : bool)
  : list Signal :=
  match answers with
  | [] => []
  | r :: answers' =>
    let '(signals, isConnected') := checkConnection r isConnected in
    signals ++ checkConnections answers' isConnected'
  end.

(** ** Core::loadFriends, Core::checkLastOnline *)

(** What the engine answers to the queries of [loadFriends]. *)
Record Tox := {
  friendlist : list Z;
  tox_get_client_id : Z -> Z * QByteArray;
  tox_get_name_size : Z -> Z;
  tox_get_name : Z -> Z * QByteArray;
  tox_get_status_message_size : Z -> Z;
  tox_get_status_message : Z -> Z -> Z * QByteArray;
  tox_get_last_online : Z -> N
}.

(** [uint32_t tox_count_friendlist] *)
Definition tox_count_friendlist (tox : Tox) : Z :=
  Z.of_nat (List.length (friendlist tox)) mod 4294967296.

Section LoadFriends.

Variable TOX_CLIENT_ID_SIZE : Z.
Variable tox : Tox.

(** [QDateTime::fromTime_t] takes a 32-bit [uint]. *)
Definition checkLastOnline (friendId : Z) : list Signal :=
  let lastOnline := tox_get_last_online tox friendId in
  if (0 <? lastOnline)%N
  then [friendLastSeenChanged friendId (lastOnline mod 4294967296)%N]
  else [].

Definition loadUsername (friendId : Z) : list Signal :=
  let nameSize := tox_get_name_size tox friendId in
  if nameSize >? 0 then
    let '(ret, name) := tox_get_name tox friendId in
    if ret =? nameSize
    then [friendUsernameLoaded friendId (CString.toString name nameSize)]
    else []
  else [].

Definition loadStatusMessage (friendId : Z) : list Signal :=
  let statusMessageSize := tox_get_status_message_size tox friendId in
  if statusMessageSize >? 0 then
    let '(ret, statusMessage) :=
      tox_get_status_message tox friendId statusMessageSize in
    if ret =? statusMessageSize
    then [friendStatusMessageLoaded friendId
            (CString.toString statusMessage statusMessageSize)]
    else []
  else [].

(** The body of the [for] loop for the friend [ids[i]]. *)
Definition loadFriend (friendId : Z) : list Signal :=
  let '(ret, clientId) := tox_get_client_id tox friendId in
  if ret =? 0 then
    [friendAdded friendId (CUserId.toString TOX_CLIENT_ID_SIZE clientId)]
    ++ loadUsername friendId
    ++ loadStatusMessage friendId
    ++ checkLastOnline friendId
  else [].

(** The loop runs while [i < static_cast<int32_t>(friendCount)]. *)
Definition loadFriends : list Signal :=
  let friendCount := tox_count_friendlist tox in
  if friendCount >? 0 then
    let bound :=
      if friendCount <? 2147483648 then friendCount
      else friendCount - 4294967296 in
    flat_map loadFriend (firstn (Z.to_nat bound) (friendlist tox))
  else [].

End LoadFriends.

(** ** Core::onUserStatusChanged *)

Section UserStatus.

Variables TOX_USERSTATUS_NONE TOX_USERSTATUS_AWAY TOX_USERSTATUS_BUSY : Z.

Definition onUserStatusChanged (friendId : Z) (userstatus : Z)
  : list Signal :=
  let status :=
    if userstatus =? TOX_USERSTATUS_NONE then Online
    else if userstatus =? TOX_USERSTATUS_AWAY then Away
    else if userstatus =? TOX_USERSTATUS_BUSY then Busy
    else Online in
  [friendStatusChanged friendId status].

End UserStatus.

(** ** The other slots and callbacks *)

(** The signals of the slots below, next to those above. *)
Inductive Event :=
| signal (s : Signal)
| failedToAddFriend (userId : QString)
| failedToStart
| friendAddressGenerated (friendAddress : QString)
| statusSet (status : Status)
| failedToSetStatus (status : Status).

(** [QString::mid(position, n)]; a negative [n] takes all that is left. *)
Definition QString_mid (s : QString) (position n : Z) : QString :=
  if n <? 0 then skipn (Z.to_nat position) s
  else firstn (Z.to_nat n) (skipn (Z.to_nat position) s).

Module CFriendAddress.
Section WithSize.
Variable TOX_FRIEND_ADDRESS_SIZE : Z.
Definition new (friendAddress : QString) : option CData.t :=
  CData.new friendAddress TOX_FRIEND_ADDRESS_SIZE.
Definition toString (cFriendAddress : QByteArray) : QString :=
  CData.toString cFriendAddress TOX_FRIEND_ADDRESS_SIZE.
End WithSize.
End CFriendAddress.

(** [Core::requestFriendship], given the answer of [tox_add_friend]. *)
Definition requestFriendship (TOX_CLIENT_ID_SIZE : Z) (tox_add_friend : Z)
    (friendAddress : QString) : list Event :=
  let friendId := tox_add_friend in
  let userId := QString_mid friendAddress 0 (TOX_CLIENT_ID_SIZE * 2) in
  if friendId <? 0 then [failedToAddFriend userId]
  else [signal (friendAdded friendId userId)].

(** [Core::onConnectionStatusChanged] *)
Definition onConnectionStatusChanged (tox : Tox) (friendId : Z) (status : Z)
  : list Signal :=
  let friendStatus := if status =? 0 then Offline else Online in
  friendStatusChanged friendId friendStatus
  :: match friendStatus with
     | Offline => checkLastOnline tox friendId
     | _ => []
     end.

(** [Core::setStatus]: the value handed to [tox_set_user_status], and the
    signal that follows its answer. *)
Section SetStatus.

Variables TOX_USERSTATUS_NONE TOX_USERSTATUS_AWAY TOX_USERSTATUS_BUSY
          TOX_USERSTATUS_INVALID : Z.

Definition userstatusOf (status : Status) : Z :=
  match status with
  | Online => TOX_USERSTATUS_NONE
  | Away => TOX_USERSTATUS_AWAY
  | Busy => TOX_USERSTATUS_BUSY
  | _ => TOX_USERSTATUS_INVALID
  end.

Definition setStatus (tox_set_user_status : Z -> Z) (status : Status)
  : list Event :=
  if tox_set_user_status (userstatusOf status) =? 0
  then [statusSet status] else [failedToSetStatus status].

End SetStatus.

(** ** Core::saveConfiguration, Core::loadConfiguration, Core::start *)

(** The settings directory and the file [data.tox] in it, as the two
    functions see them: whether the directory is there, the content of the
    file if it exists, and whether the operations that can fail succeed.
    [QSaveFile] writes to a temporary file, and only [commit] puts it in
    place of the file. *)
Record Disk := {
  directoryExists : bool;
  mkpathSucceeds : bool;
  openForWriting : bool;
  commitSucceeds : bool;
  openForReading : bool;
  file : option QByteArray
}.

Definition withDirectory (d : Disk) : Disk :=
  {| directoryExists := true;
     mkpathSucceeds := mkpathSucceeds d;
     openForWriting := openForWriting d;
     commitSucceeds := commitSucceeds d;
     openForReading := openForReading d;
     file := file d |}.

Definition withFile (d : Disk) (data : QByteArray) : Disk :=
  {| directoryExists := directoryExists d;
     mkpathSucceeds := mkpathSucceeds d;
     openForWriting := openForWriting d;
     commitSucceeds := commitSucceeds d;
     openForReading := openForReading d;
     file := Some data |}.

(** [uint32_t tox_size]; [saved] is what [tox_save] writes. *)
Definition tox_size (saved : QByteArray) : Z := size saved mod 4294967296.

Definition saveConfiguration (saved : QByteArray) (d : Disk) : Disk :=
  if negb (directoryExists d) && negb (mkpathSucceeds d) then d
  else
    let d := withDirectory d in
    if negb (openForWriting d) then d
    else
      let fileSize := tox_size saved in
      if (fileSize >? 0) && (fileSize <=? 2147483647) then
        if commitSucceeds d
        then withFile d (firstn (Z.to_nat fileSize) saved)
        else d
      else d.

Section Start.

Variable TOX_CLIENT_ID_SIZE : Z.
Variable TOX_FRIEND_ADDRESS_SIZE : Z.

(** The engine after [tox_load], and the address [tox_get_address] writes. *)
Variable tox_load : Tox -> QByteArray -> Tox.
Variable tox_get_address : Tox -> QByteArray.

(** The engine afterwards and the signals emitted. *)
Definition loadConfiguration (tox : Tox) (d : Disk) : Tox * list Signal :=
  match file d with
  | None => (tox, [])
  | Some data =>
    if negb (openForReading d) then (tox, [])
    else
      let tox := if size data >? 0 then tox_load tox data else tox in
      (tox, loadFriends TOX_CLIENT_ID_SIZE tox)
  end.

(** [Core::start], as far as it emits: [tox_new] is given the value of
    [options.ipv6enabled]; setting name and status message, bootstrapping and
    starting the timer emit nothing. *)
Definition start (isIPv6Enabled isIPv4FallbackEnabled : bool)
    (tox_new : bool -> option Tox) (d : Disk) : list Event :=
  let tox := tox_new isIPv6Enabled in
  let tox :=
    match tox with
    | None =>
      if isIPv6Enabled && isIPv4FallbackEnabled then tox_new false else None
    | Some _ => tox
    end in
  match tox with
  | None => [failedToStart]
  | Some tox =>
    let '(tox, signals) := loadConfiguration tox d in
    map signal signals
    ++ [friendAddressGenerated
          (CFriendAddress.toString TOX_FRIEND_ADDRESS_SIZE
             (tox_get_address tox))]
  end.

End Start.

(** ** Vocabulary of the statements *)

Definition isSplitChar (b : Z) : bool := existsb (Z.eqb b) splitOn.

(** The shape of one encoded codepoint: a lead byte, which is not a
    continuation byte, followed by at most three continuation bytes; an ASCII
    lead byte stands alone. *)
Definition codepointBytes (g : QByteArray) : Prop :=
  exists b t, g = b :: t /\ byte_ok b /\ continuation b = false
    /\ Forall (fun x => continuation x = true) t
    /\ (List.length t <= 3)%nat /\ (b < 128 -> t = []).

(** [p] is a byte offset of [toUtf8 T] at which a codepoint of [T] starts or
    the array ends. *)
Definition boundary (T : QString) (p : Z) : Prop :=
  exists A B, T = A ++ B /\ size (toUtf8 A) = p.

(** A text without the byte-order mark U+FEFF that may stand at its start:
    what [fromUtf8] makes of the encoding of the text. *)
Definition dropBom (T : QString) : QString :=
  match T with
  | c :: r => if c =? 65279 then r else T
  | [] => []
  end.

(** The signals that carry the handle of a friend. *)
Definition signalFriend (s : Signal) : option Z :=
  match s with
  | connected | disconnected => None
  | friendAdded f _ | friendUsernameLoaded f _
  | friendStatusMessageLoaded f _ | friendLastSeenChanged f _
  | friendStatusChanged f _ => Some f
  end.

Definition about (friendId : Z) (s : Signal) : bool :=
  match signalFriend s with
  | Some f => f =? friendId
  | None => false
  end.

Definition upperHexDigit (c : Z) : Prop := 48 <= c <= 57 \/ 65 <= c <= 70.

Definition hexChar (c : Z) : bool := negb (fromHexDigit c =? -1).

Definition lowerHexDigit (c : Z) : Prop := 48 <= c <= 57 \/ 97 <= c <= 102.

Definition nibblesOk (b : Z) : bool :=
  let lo := Z.land b 15 in
  let hi := Z.land (Z.shiftr b 4) 15 in
  (fromHexDigit (hexDigit lo) =? lo) && negb (lo =? -1)
  && (fromHexDigit (hexDigit hi) =? hi) && negb (hi =? -1)
  && (Z.lor lo (Z.shiftl hi 4) =? b)
  && (0 <=? lo) && (lo <=? 15) && (0 <=? hi) && (hi <=? 15).

(** The place of a signal in the order added, name, status message, last
    seen. *)
Definition signalRank (s : Signal) : nat :=
  match s with
  | friendAdded _ _ => 0
  | friendUsernameLoaded _ _ => 1
  | friendStatusMessageLoaded _ _ => 2
  | friendLastSeenChanged _ _ => 3
  | _ => 4
  end.

(** A name is available when the engine reports a positive size and then
    hands out that many bytes; likewise for the status message. *)
Definition nameAvailable (tox : Tox) (friendId : Z) : bool :=
  (tox_get_name_size tox friendId >? 0)
  && (fst (tox_get_name tox friendId) =? tox_get_name_size tox friendId).

Definition statusMessageAvailable (tox : Tox) (friendId : Z) : bool :=
  (tox_get_status_message_size tox friendId >? 0)
  && (fst (tox_get_status_message tox friendId
             (tox_get_status_message_size tox friendId))
      =? tox_get_status_message_size tox friendId).

(** An engine with two friends, 5 and 9, whose names and status messages are
    known and who were never seen online. *)
Definition twoFriends : Tox := {|
  friendlist := [5; 9];
  tox_get_client_id := fun f => (0, [f; 171]);
  tox_get_name_size := fun _ => 3;
  tox_get_name := fun _ => (3, [66; 111; 98]);
  tox_get_status_message_size := fun _ => 2;
  tox_get_status_message := fun _ _ => (2, [104; 105]);
  tox_get_last_online := fun _ => 0%N
|}.

(** A character of ASCII that is none of the split characters. *)
Definition plain (b : Z) : Prop := 0 <= b < 128 /\ isSplitChar b = false.

(** The bytes of a text of hexadecimal digits, read two by two. *)
Fixpoint decodePairs (s : list Z) : QByteArray :=
  match s with
  | h :: l :: r =>
    Z.lor (fromHexDigit l) (Z.shiftl (fromHexDigit h) 4) :: decodePairs r
  | _ => []
  end.

(** A list of [connected] and [disconnected] that takes turns, beginning
    with [connected] when [expectConnected] is set. *)
Fixpoint alternating (expectConnected : bool) (l : list Signal) : bool :=
  match l with
  | [] => true
  | connected :: l' => expectConnected && alternating false l'
  | disconnected :: l' => negb expectConnected && alternating true l'
  | _ => false
  end.

(** The number of answers that differ from the one before them, [previous]
    standing before the first. *)
Fixpoint changes (previous : bool) (answers : list Z) : nat :=
  match answers with
  | [] => 0
  | r :: answers' =>
    let online := negb (r =? 0) in
    (if Bool.eqb online previous then 0 else 1) + changes online answers'
  end.


(** A settings directory that is not there yet but can be made, with no
    file in it, where every operation succeeds. *)
Definition freshDisk : Disk := {|
  directoryExists := false;
  mkpathSucceeds := true;
  openForWriting := true;
  commitSucceeds := true;
  openForReading := true;
  file := None
|}.

(** An engine that takes the bytes of a loaded state as its friend list. *)
Definition loadAsFriends (tox : Tox) (data : QByteArray) : Tox := {|
  friendlist := data;
  tox_get_client_id := tox_get_client_id tox;
  tox_get_name_size := tox_get_name_size tox;
  tox_get_name := tox_get_name tox;
  tox_get_status_message_size := tox_get_status_message_size tox;
  tox_get_status_message := tox_get_status_message tox;
  tox_get_last_online := tox_get_last_online tox
|}.

(** An engine that can only be created without IPv6. *)
Definition onlyWithoutIPv6 (ipv6enabled : bool) : option Tox :=
  if ipv6enabled then None else Some twoFriends.

(** The texts of the examples. *)
Definition fox : QString :=
  text "The quick brown fox jumps over the lazy dog again".

Definition twoEmoji : QString := [128512; 128512].

(** U+FEFF followed by "ab". *)
Definition markedText : QString := [65279; 97; 98].

(** Letters, a euro sign, an a-umlaut and two emoji: codepoints of one to
    four bytes. *)
Definition mixedText : QString := [97; 8364; 128512; 98; 228; 128512; 99].

(** * Proofs *)

(** ** Bytes *)

Lemma byte_cases (P : Z -> bool) :
  forallb P (map Z.of_nat (seq 0 256)) = true ->
  forall b, byte_ok b -> P b = true.
Proof.
  intros H b Hb. rewrite forallb_forall in H. apply H.
  apply in_map_iff. exists (Z.to_nat b). split.
  - apply Z2Nat.id. apply Hb.
  - apply in_seq. unfold byte_ok in Hb. lia.
Qed.

Lemma masked_multibyte b :
  byte_ok b -> masked b multibyteCodepoint = (128 <=? b).
Proof.
  intros Hb.
  apply (byte_cases
           (fun x => Bool.eqb (masked x multibyteCodepoint) (128 <=? x)))
    in Hb; [ | vm_compute; reflexivity ].
  apply eqb_prop in Hb. exact Hb.
Qed.

Lemma masked_continuation b :
  byte_ok b ->
  masked b multibyteCodepoint && negb (masked b multibyteCodepointStart)
  = continuation b.
Proof.
  intros Hb.
  apply (byte_cases
           (fun x => Bool.eqb
                       (masked x multibyteCodepoint
                        && negb (masked x multibyteCodepointStart))
                       (continuation x)))
    in Hb; [ | vm_compute; reflexivity ].
  apply eqb_prop in Hb. exact Hb.
Qed.

Lemma isSplitChar_cases b :
  isSplitChar b = true -> b = 32 \/ b = 46 \/ b = 44 \/ b = 45.
Proof.
  unfold isSplitChar, splitOn. simpl. intros H.
  repeat (apply orb_prop in H; destruct H as [H | H]);
    try discriminate; apply Z.eqb_eq in H; auto.
Qed.

Lemma isSplitChar_single b :
  isSplitChar b = true -> masked b multibyteCodepoint = false /\ b < 128.
Proof.
  intros H. apply isSplitChar_cases in H.
  destruct H as [-> | [-> | [-> | ->]]]; split; (reflexivity || lia).
Qed.

(** ** Array access *)

Lemma size_nonneg (a : QByteArray) : 0 <= size a.
Proof. unfold size. lia. Qed.

Lemma size_app (a b : QByteArray) : size (a ++ b) = size a + size b.
Proof. unfold size. rewrite length_app. lia. Qed.

Lemma size_cons x (a : QByteArray) : size (x :: a) = 1 + size a.
Proof. unfold size. simpl List.length. lia. Qed.

Lemma at_app_l (a b : QByteArray) i :
  0 <= i < size a -> at_ (a ++ b) i = at_ a i.
Proof.
  unfold at_, size. intros H.
  destruct (i <? 0); [ reflexivity | ].
  apply app_nth1. lia.
Qed.

Lemma at_app_r (a b : QByteArray) i :
  size a <= i -> at_ (a ++ b) i = at_ b (i - size a).
Proof.
  unfold at_, size. intros H.
  destruct (Z.ltb_spec i 0); [ lia | ].
  destruct (Z.ltb_spec (i - Z.of_nat (List.length a)) 0); [ lia | ].
  rewrite app_nth2 by lia. f_equal. lia.
Qed.

Lemma at_ok (a : QByteArray) i : Forall byte_ok a -> byte_ok (at_ a i).
Proof.
  intros H. unfold at_. destruct (i <? 0); [ unfold byte_ok; lia | ].
  destruct (Nat.lt_ge_cases (Z.to_nat i) (List.length a)) as [Hlt | Hge].
  - rewrite Forall_forall in H. apply H. apply nth_In. exact Hlt.
  - rewrite nth_overflow by exact Hge. unfold byte_ok. lia.
Qed.

Lemma mid_app (a b c : QByteArray) :
  mid (a ++ b ++ c) (size a) (size b) = b.
Proof.
  unfold mid, size. rewrite !Nat2Z.id.
  rewrite skipn_app, skipn_all, Nat.sub_diag. simpl.
  rewrite firstn_app, firstn_all, Nat.sub_diag. simpl.
  apply app_nil_r.
Qed.

(** ** UTF-8 *)

Ltac bool_arith :=
  unfold byte_ok, continuation, scalarb, scalar in *;
  rewrite ?andb_true_iff, ?andb_false_iff, ?orb_true_iff,
    ?Z.leb_le, ?Z.ltb_lt, ?Z.leb_gt, ?Z.ltb_ge;
  Z.div_mod_to_equations; lia.

Ltac decide_tests :=
  repeat match goal with
  | |- context [?x <=? ?y] =>
    destruct (Z.leb_spec x y);
    [ try (exfalso; bool_arith) | try (exfalso; bool_arith) ]
  | |- context [?x <? ?y] =>
    destruct (Z.ltb_spec x y);
    [ try (exfalso; bool_arith) | try (exfalso; bool_arith) ]
  end.

Lemma utf8_encode_shape c : scalar c -> codepointBytes (utf8_encode c).
Proof.
  intros Hc. unfold codepointBytes, utf8_encode.
  destruct (Z.ltb_spec c 128); [ | destruct (Z.ltb_spec c 2048);
    [ | destruct (Z.ltb_spec c 65536) ] ];
    eexists; eexists; (split; [ reflexivity | ]);
    repeat split; repeat constructor; cbn [List.length];
    try bool_arith; try lia.
Qed.

Lemma utf8_decode_encode c r :
  scalar c ->
  utf8_decode (utf8_encode c ++ r) = option_map (cons c) (utf8_decode r).
Proof.
  intros Hc. unfold utf8_encode.
  destruct (Z.ltb_spec c 128); [ | destruct (Z.ltb_spec c 2048);
    [ | destruct (Z.ltb_spec c 65536) ] ];
    cbn [utf8_decode app]; unfold continuation, scalarb;
    decide_tests; cbn [andb orb];
    try (f_equal; f_equal; bool_arith).
Qed.

Lemma utf8_decode_toUtf8 T :
  Forall scalar T -> utf8_decode (toUtf8 T) = Some T.
Proof.
  induction 1 as [ | c T Hc HT IH ]; [ reflexivity | ].
  unfold toUtf8 in *. cbn [flat_map].
  rewrite utf8_decode_encode by exact Hc. rewrite IH. reflexivity.
Qed.

(** Only the encoding of U+FEFF begins with the three bytes of the mark. *)
Lemma startsWithBom_encode c r :
  scalar c -> startsWithBom (utf8_encode c ++ r) = (c =? 65279).
Proof.
  intros Hc. destruct (Z.eqb_spec c 65279) as [-> | Hne]; [ reflexivity | ].
  unfold utf8_encode.
  destruct (Z.ltb_spec c 128); [ | destruct (Z.ltb_spec c 2048);
    [ | destruct (Z.ltb_spec c 65536) ] ]; cbn [app].
  - unfold startsWithBom.
    destruct r as [ | b1 [ | b2 r ] ]; try reflexivity.
    replace (c =? 239) with false by (symmetry; apply Z.eqb_neq; lia).
    reflexivity.
  - unfold startsWithBom.
    replace (192 + c / 64 =? 239) with false
      by (symmetry; apply Z.eqb_neq; Z.div_mod_to_equations; lia).
    destruct r; reflexivity.
  - unfold startsWithBom.
    apply andb_false_iff.
    destruct (Z.eqb_spec (128 + c mod 64) 191) as [E3 | ];
      [ | right; reflexivity ].
    left. apply andb_false_iff.
    destruct (Z.eqb_spec (128 + (c / 64) mod 64) 187) as [E2 | ];
      [ | right; reflexivity ].
    left. apply Z.eqb_neq. Z.div_mod_to_equations. lia.
  - unfold startsWithBom.
    replace (240 + c / 262144 =? 239) with false
      by (symmetry; apply Z.eqb_neq; Z.div_mod_to_equations; lia).
    reflexivity.
Qed.

(** What [QString::fromUtf8] makes of the encoding of a text: the text, less
    a byte-order mark at its start. *)
Lemma fromUtf8_toUtf8 T :
  Forall scalar T -> fromUtf8 (toUtf8 T) = Some (dropBom T).
Proof.
  intros HT. unfold fromUtf8.
  destruct T as [ | c T ]; [ reflexivity | ].
  inversion HT as [ | ? ? Hc HT' ]; subst.
  unfold toUtf8. cbn [flat_map dropBom].
  rewrite startsWithBom_encode by exact Hc.
  destruct (Z.eqb_spec c 65279) as [-> | Hne].
  - cbn [utf8_encode Z.ltb Z.compare Pos.compare Pos.compare_cont app skipn].
    change (utf8_encode 65279) with [239; 187; 191]. cbn [app skipn].
    apply (utf8_decode_toUtf8 T HT').
  - apply (utf8_decode_toUtf8 (c :: T) HT).
Qed.

Lemma fromUtf8_some T : Forall scalar T -> fromUtf8 (toUtf8 T) <> None.
Proof.
  intros HT. rewrite fromUtf8_toUtf8 by exact HT. discriminate.
Qed.

Lemma dropBom_without T : ~ In 65279 T -> dropBom T = T.
Proof.
  destruct T as [ | c T ]; [ reflexivity | ].
  intros H. cbn [dropBom].
  destruct (Z.eqb_spec c 65279) as [-> | _]; [ | reflexivity ].
  exfalso. apply H. left. reflexivity.
Qed.

Lemma toUtf8_app A B : toUtf8 (A ++ B) = toUtf8 A ++ toUtf8 B.
Proof. apply flat_map_app. Qed.

Lemma toUtf8_ok T : Forall scalar T -> Forall byte_ok (toUtf8 T).
Proof.
  induction 1 as [ | c T Hc HT IH ]; [ constructor | ].
  unfold toUtf8 in *. cbn [flat_map]. apply Forall_app. split; [ | exact IH ].
  destruct (utf8_encode_shape c Hc) as (b & t & -> & Hb & _ & Ht & _).
  constructor; [ exact Hb | ].
  eapply Forall_impl; [ | exact Ht ]. intros x Hx. bool_arith.
Qed.

Lemma toUtf8_empty T : size (toUtf8 T) <= 0 -> T = [].
Proof.
  destruct T as [ | c T ]; [ reflexivity | ].
  unfold toUtf8. cbn [flat_map]. rewrite size_app. intros H. exfalso.
  pose proof (size_nonneg (flat_map utf8_encode T)).
  assert (0 < size (utf8_encode c)); [ | lia ].
  unfold utf8_encode.
  destruct (c <? 128); [ | destruct (c <? 2048); [ | destruct (c <? 65536) ] ];
    reflexivity.
Qed.

(** ** Codepoint boundaries *)

Lemma boundary_cons c T p :
  boundary T p -> boundary (c :: T) (size (utf8_encode c) + p).
Proof.
  intros (A & B & -> & <-). exists (c :: A), B. split; [ reflexivity | ].
  unfold toUtf8. cbn [flat_map]. apply size_app.
Qed.

Lemma at_group_tail b t (r : QByteArray) i :
  Forall (fun x => continuation x = true) t ->
  0 < i < size (b :: t) ->
  continuation (at_ ((b :: t) ++ r) i) = true.
Proof.
  intros Ht Hi. rewrite size_cons in Hi.
  rewrite at_app_l by (rewrite size_cons; lia).
  unfold at_. destruct (Z.ltb_spec i 0); [ lia | ].
  replace (Z.to_nat i) with (S (Z.to_nat (i - 1))) by lia.
  cbn [nth]. rewrite Forall_forall in Ht. apply Ht. apply nth_In.
  unfold size in Hi. lia.
Qed.

(** A byte that is not a continuation byte starts a codepoint. *)
Lemma start_is_boundary T :
  Forall scalar T ->
  forall p, 0 <= p < size (toUtf8 T) ->
  continuation (at_ (toUtf8 T) p) = false -> boundary T p.
Proof.
  induction 1 as [ | c T Hc HT IH ]; intros p Hp Hat.
  - cbn in Hp. lia.
  - unfold toUtf8 in *. cbn [flat_map] in *. rewrite size_app in Hp.
    destruct (utf8_encode_shape c Hc) as (b & t & Eg & _ & _ & Ht & _).
    destruct (Z.lt_ge_cases p (size (utf8_encode c))) as [Hlt | Hge].
    + destruct (Z.eq_dec p 0) as [-> | Hne].
      * exists [], (c :: T). split; reflexivity.
      * rewrite Eg in Hat, Hlt.
        rewrite at_group_tail in Hat by (auto; lia). discriminate.
    + rewrite at_app_r in Hat by exact Hge.
      replace p with (size (utf8_encode c) + (p - size (utf8_encode c)))
        by lia.
      apply boundary_cons. apply IH; [ lia | exact Hat ].
Qed.

(** Every position of the array is covered by a codepoint that starts at most
    three bytes before it. *)
Lemma codepoint_start_near T :
  Forall scalar T ->
  forall p, 0 <= p < size (toUtf8 T) ->
  exists q, p - 3 <= q <= p /\ 0 <= q
    /\ continuation (at_ (toUtf8 T) q) = false
    /\ forall r, q < r <= p -> continuation (at_ (toUtf8 T) r) = true.
Proof.
  induction 1 as [ | c T Hc HT IH ]; intros p Hp.
  - cbn in Hp. lia.
  - unfold toUtf8 in *. cbn [flat_map] in *. rewrite size_app in Hp.
    destruct (utf8_encode_shape c Hc) as (b & t & Eg & _ & Hb & Ht & Hlen & _).
    destruct (Z.lt_ge_cases p (size (utf8_encode c))) as [Hlt | Hge].
    + exists 0. rewrite Eg in *. rewrite size_cons in Hlt.
      unfold size in Hlt. repeat split; try lia.
      * exact Hb.
      * intros r Hr. apply at_group_tail; [ exact Ht | ].
        rewrite size_cons. unfold size. lia.
    + destruct (IH (p - size (utf8_encode c))) as (q & Hq & Hq0 & Hat & Hall);
        [ lia | ].
      exists (size (utf8_encode c) + q).
      pose proof (size_nonneg (utf8_encode c)).
      repeat split; try lia.
      * rewrite at_app_r by lia.
        replace (size (utf8_encode c) + q - size (utf8_encode c)) with q
          by lia.
        exact Hat.
      * intros r Hr. rewrite at_app_r by lia. apply Hall. lia.
Qed.

(** A boundary followed by an ASCII byte is followed by another boundary. *)
Lemma boundary_after_ascii T p :
  Forall scalar T -> boundary T p -> p < size (toUtf8 T) ->
  at_ (toUtf8 T) p < 128 -> boundary T (p + 1).
Proof.
  intros HT (A & B & -> & <-) Hp Hat.
  rewrite toUtf8_app, size_app in Hp.
  rewrite toUtf8_app, at_app_r, Z.sub_diag in Hat by lia.
  destruct B as [ | c B ]; [ cbn in Hp; lia | ].
  apply Forall_app in HT. destruct HT as [_ HB].
  inversion HB as [ | ? ? Hc _ ]; subst.
  destruct (utf8_encode_shape c Hc) as (b & t & Eg & _ & _ & _ & _ & Hone).
  unfold toUtf8 in Hat. cbn [flat_map] in Hat. rewrite Eg in Hat.
  cbn in Hat. specialize (Hone Hat). subst t.
  exists (A ++ [c]), B. split.
  - rewrite <- app_assoc. reflexivity.
  - rewrite toUtf8_app, size_app. unfold toUtf8 at 2. cbn [flat_map].
    rewrite Eg. reflexivity.
Qed.

(** Two boundaries in order cut out the encoding of a piece of the text. *)
Lemma boundary_between T1 T2 p :
  boundary (T1 ++ T2) p -> size (toUtf8 T1) <= p ->
  exists Tm T2', T2 = Tm ++ T2' /\ p = size (toUtf8 T1) + size (toUtf8 Tm).
Proof.
  intros (A & B & E & <-) Hle.
  revert A E Hle. induction T1 as [ | c T1 IH ]; intros A E Hle.
  - exists A, B. split; [ exact E | reflexivity ].
  - destruct A as [ | a A ].
    + cbn in Hle. apply (toUtf8_empty (c :: T1)) in Hle. discriminate.
    + cbn [app] in E. injection E as -> E.
      unfold toUtf8 in *. cbn [flat_map] in *. rewrite !size_app in Hle.
      destruct (IH A E) as (Tm & T2' & -> & Hp); [ lia | ].
      exists Tm, T2'. split; [ reflexivity | ].
      rewrite !size_app. lia.
Qed.

(** ** The two backward searches *)

Section Searches.

Variable a : QByteArray.
Hypothesis a_ok : Forall byte_ok a.

Lemma findCodepointStart_found n p q :
  q <= p -> p - q < Z.of_nat n ->
  continuation (at_ a q) = false ->
  (forall r, q < r <= p -> continuation (at_ a r) = true) ->
  findCodepointStart a n p = q.
Proof.
  revert p. induction n as [ | n IH ]; intros p Hqp Hn Hq Hr; [ lia | ].
  cbn [findCodepointStart]. rewrite masked_continuation by (apply at_ok, a_ok).
  destruct (Z.eq_dec p q) as [-> | Hne].
  - rewrite Hq. reflexivity.
  - rewrite Hr by lia. apply IH; try lia; auto.
    intros r Hr'. apply Hr. lia.
Qed.

(** The second search returns [-1] when the window holds no split character,
    and otherwise one past the split character nearest to where it started. *)
Lemma findSplit_spec n i :
  (findSplit a n i = -1
   /\ forall k, i - Z.of_nat n < k <= i -> isSplitChar (at_ a k) = false)
  \/ (exists j, findSplit a n i = j + 1 /\ i - Z.of_nat n < j <= i
        /\ isSplitChar (at_ a j) = true
        /\ forall k, j < k <= i -> isSplitChar (at_ a k) = false).
Proof.
  revert i. induction n as [ | n IH ]; intros i.
  - left. split; [ reflexivity | ]. intros k Hk. lia.
  - cbn [findSplit]. fold (isSplitChar (at_ a i)).
    destruct (isSplitChar (at_ a i)) eqn:Hs.
    + destruct (isSplitChar_single _ Hs) as [-> _].
      right. exists i. repeat split; try lia. exact Hs.
    + assert (E : (if masked (at_ a i) multibyteCodepoint
                   then findSplit a n (i - 1)
                   else findSplit a n (i - 1)) = findSplit a n (i - 1))
        by (destruct (masked _ _); reflexivity).
      rewrite E. clear E.
      destruct (IH (i - 1)) as [[E Hk] | (j & E & Hj & Hsj & Hk)].
      * left. split; [ exact E | ]. intros k Hk'.
        destruct (Z.eq_dec k i) as [-> | Hne]; [ exact Hs | apply Hk; lia ].
      * right. exists j. repeat split; try lia; auto.
        intros k Hk'.
        destruct (Z.eq_dec k i) as [-> | Hne]; [ exact Hs | apply Hk; lia ].
Qed.

End Searches.

(** ** One iteration of the loop *)

Section Iteration.

Variable M : Z.
Variable T : QString.
Hypothesis T_scalar : Forall scalar T.
Hypothesis M_ge_4 : 4 <= M.

Let a := toUtf8 T.

Lemma lastCodepointStart_spec off :
  0 <= off -> size a > M + off ->
  let q := lastCodepointStartAt M a off in
  M + off - 4 <= q <= M + off - 1 /\ boundary T q.
Proof.
  intros Hoff Hsz q.
  destruct (codepoint_start_near T T_scalar (M + off - 1))
    as (q' & Hq & Hq0 & Hat & Hall); [ fold a; lia | ].
  assert (E : q = q').
  { unfold q, lastCodepointStartAt.
    apply findCodepointStart_found; try (cbn; lia); auto.
    apply toUtf8_ok, T_scalar. }
  rewrite E. split; [ lia | ].
  apply start_is_boundary; [ exact T_scalar | fold a; lia | exact Hat ].
Qed.

(** The split position is a codepoint boundary at most [M] bytes after the
    offset, and never before it. *)
Lemma splitPosition_spec off :
  0 <= off -> size a > M + off ->
  let sp := splitPositionAt M a off in
  off <= sp <= M + off /\ boundary T sp /\ (5 <= M -> off < sp).
Proof.
  intros Hoff Hsz sp.
  destruct (lastCodepointStart_spec off Hoff Hsz) as [Hq Hbq].
  unfold sp, splitPositionAt.
  set (q := lastCodepointStartAt M a off) in *.
  destruct (findSplit_spec a (Z.to_nat (q - searchLimit M off)) q)
    as [[-> _] | (j & -> & Hj & Hsj & _)].
  - replace (-1 <=? off) with true by (symmetry; apply Z.leb_le; lia).
    cbn [orb]. repeat split; try lia. exact Hbq.
  - destruct (Z.leb_spec (j + 1) off) as [Hle | Hgt]; cbn [orb].
    + repeat split; try lia. exact Hbq.
    + destruct (Z.gtb_spec (j + 1) (M + off)) as [Hbig | Hfit].
      * exfalso. lia.
      * repeat split; try lia.
        destruct (isSplitChar_single _ Hsj) as [_ Hascii].
        assert (Hcont : continuation (at_ a j) = false).
        { unfold continuation. apply andb_false_iff. left.
          apply Z.leb_gt. exact Hascii. }
        apply boundary_after_ascii;
          [ exact T_scalar | | fold a; lia | exact Hascii ].
        apply start_is_boundary;
          [ exact T_scalar | fold a; lia | exact Hcont ].
Qed.

End Iteration.

(** ** The loop *)

Lemma mid_whole (a : QByteArray) : mid a 0 (size a - 0) = a.
Proof.
  unfold mid, size. rewrite Z.sub_0_r, Nat2Z.id. cbn [Z.to_nat skipn].
  apply firstn_all.
Qed.

Lemma mid_tail (a b : QByteArray) :
  mid (a ++ b) (size a) (size (a ++ b) - size a) = b.
Proof.
  rewrite size_app. replace (size a + size b - size a) with (size b) by lia.
  rewrite <- (app_nil_r b) at 1. rewrite mid_app. reflexivity.
Qed.

Section Loop.

Variable M : Z.
Variable T : QString.
Hypothesis T_scalar : Forall scalar T.
Hypothesis M_ge_4 : 4 <= M.

Let a := toUtf8 T.

(** Whatever the number of iterations run, the chunks sent so far are the
    encodings of consecutive pieces of the text, each of at most [M] bytes;
    once the function has returned nothing of the text is left over. *)
Lemma sendLoop_pieces fuel :
  forall T1 T2, T = T1 ++ T2 ->
  exists parts rest,
    sent (sendLoop M a fuel (size (toUtf8 T1))) = map toUtf8 parts
    /\ T2 = concat parts ++ rest
    /\ Forall (fun p => size (toUtf8 p) <= M) parts
    /\ (returned (sendLoop M a fuel (size (toUtf8 T1))) = true -> rest = []).
Proof.
  induction fuel as [ | fuel IH ]; intros T1 T2 E.
  - cbn [sendLoop].
    assert (Ea : a = toUtf8 T1 ++ toUtf8 T2)
      by (unfold a; rewrite E; apply toUtf8_app).
    destruct (Z.gtb_spec (size a) (M + size (toUtf8 T1))) as [Hbig | Hfit].
    + exists [], T2. cbn. repeat split; auto. discriminate.
    + destruct (Z.gtb_spec (size a - size (toUtf8 T1)) 0) as [Hpos | Hzero].
      * exists [T2], []. cbn [sent map concat returned].
        rewrite !app_nil_r. rewrite Ea at 1 2. rewrite mid_tail.
        repeat split; auto. constructor; [ | constructor ].
        rewrite Ea, size_app in Hfit. lia.
      * exists [], []. cbn. repeat split; auto.
        apply toUtf8_empty. rewrite Ea, size_app in Hzero. lia.
  - cbn [sendLoop].
    assert (Ea : a = toUtf8 T1 ++ toUtf8 T2)
      by (unfold a; rewrite E; apply toUtf8_app).
    destruct (Z.gtb_spec (size a) (M + size (toUtf8 T1))) as [Hbig | Hfit].
    + destruct (splitPosition_spec M T T_scalar M_ge_4 (size (toUtf8 T1)))
        as (Hsp & Hb & _); [ apply size_nonneg | fold a; lia | ].
      fold a in Hsp, Hb |- *.
      set (sp := splitPositionAt M a (size (toUtf8 T1))) in *.
      rewrite E in Hb.
      destruct (boundary_between T1 T2 sp Hb) as (Tm & T2' & -> & Esp);
        [ lia | ].
      destruct (IH (T1 ++ Tm) T2') as (parts & rest & Es & Ec & Hf & Hr);
        [ rewrite <- app_assoc; exact E | ].
      rewrite toUtf8_app, size_app, <- Esp in Es, Hr.
      exists (Tm :: parts), rest. cbn [sent returned map concat].
      rewrite Es. repeat split.
      * f_equal. replace (sp - size (toUtf8 T1)) with (size (toUtf8 Tm))
          by lia.
        rewrite Ea, toUtf8_app. apply mid_app.
      * rewrite <- app_assoc, <- Ec. reflexivity.
      * constructor; [ lia | exact Hf ].
      * exact Hr.
    + destruct (Z.gtb_spec (size a - size (toUtf8 T1)) 0) as [Hpos | Hzero].
      * exists [T2], []. cbn [sent map concat returned].
        rewrite !app_nil_r. rewrite Ea at 1 2. rewrite mid_tail.
        repeat split; auto. constructor; [ | constructor ].
        rewrite Ea, size_app in Hfit. lia.
      * exists [], []. cbn. repeat split; auto.
        apply toUtf8_empty. rewrite Ea, size_app in Hzero. lia.
Qed.

(** With a limit of five bytes or more every iteration moves the offset
    forward, so the loop is over after at most as many iterations as the
    array has bytes. *)
Lemma sendLoop_returns :
  5 <= M ->
  forall fuel off, 0 <= off -> size a - off <= Z.of_nat fuel ->
  returned (sendLoop M a fuel off) = true.
Proof.
  intros HM. induction fuel as [ | fuel IH ]; intros off Hoff Hfuel;
    cbn [sendLoop];
    destruct (Z.gtb_spec (size a) (M + off)) as [Hbig | Hfit];
    try (destruct (size a - off >? 0); reflexivity).
  - lia.
  - cbn [returned].
    destruct (splitPosition_spec M T T_scalar M_ge_4 off Hoff)
      as (Hsp & _ & Hlt); [ fold a; lia | ].
    specialize (Hlt HM). fold a in Hsp, Hlt. apply IH; lia.
Qed.

End Loop.

Lemma joinDecoded_pieces parts :
  Forall (Forall scalar) parts ->
  joinDecoded (map toUtf8 parts) = Some (concat (map dropBom parts)).
Proof.
  induction 1 as [ | p parts Hp _ IH ]; [ reflexivity | ].
  cbn [map joinDecoded concat]. rewrite fromUtf8_toUtf8 by exact Hp.
  rewrite IH. reflexivity.
Qed.

Lemma map_dropBom_without parts :
  ~ In 65279 (concat parts) -> map dropBom parts = parts.
Proof.
  induction parts as [ | p parts IH ]; intros H; [ reflexivity | ].
  cbn [concat] in H. cbn [map]. rewrite IH, dropBom_without.
  - reflexivity.
  - intros Hin. apply H, in_or_app. left. exact Hin.
  - intros Hin. apply H, in_or_app. right. exact Hin.
Qed.

Lemma Forall_concat_inv {A} (P : A -> Prop) (ls : list (list A)) :
  Forall P (concat ls) -> Forall (Forall P) ls.
Proof.
  induction ls as [ | l ls IH ]; intros H; [ constructor | ].
  cbn [concat] in H. apply Forall_app in H. destruct H as [Hl Hls].
  constructor; [ exact Hl | apply IH, Hls ].
Qed.

(** * Message Chunker *)

Lemma sendMessage_pieces M T fuel :
  Forall scalar T -> 4 <= M ->
  exists parts rest,
    sent (sendMessage M fuel T) = map toUtf8 parts
    /\ T = concat parts ++ rest
    /\ Forall (fun p => size (toUtf8 p) <= M) parts
    /\ (returned (sendMessage M fuel T) = true -> rest = []).
Proof.
  intros HT HM.
  exact (sendLoop_pieces M T HT HM fuel [] T eq_refl).
Qed.

Lemma sendLoop_stuck fuel :
  sendLoop 4 (toUtf8 twoEmoji) fuel 0
  = {| sent := repeat [] fuel; returned := false |}.
Proof.
  induction fuel as [ | fuel IH ]; [ reflexivity | ].
  cbn [sendLoop repeat].
  change (size (toUtf8 twoEmoji) >? 4 + 0) with true. cbv iota.
  change (splitPositionAt 4 (toUtf8 twoEmoji) 0) with 0.
  rewrite IH. reflexivity.
Qed.

Lemma joinDecoded_empty n : joinDecoded (repeat [] n) = Some [].
Proof.
  induction n as [ | n IH ]; [ reflexivity | ].
  cbn [repeat joinDecoded]. change (fromUtf8 []) with (Some (@nil Z)).
  rewrite IH. reflexivity.
Qed.

(** C1, as amended: for every text and every frame limit of at least five
    bytes, [sendMessage] returns, and the decoded texts of the chunks it has
    sent, joined in order, are the text except for a byte-order mark U+FEFF at
    the start of a chunk, which [QString::fromUtf8] skips: the chunks encode
    consecutive pieces that make up the text, and the joined text is those
    pieces, each less such a mark.  For a text without U+FEFF it is the text
    itself. *)
Theorem chunks_rejoin_to_text M T fuel :
  Forall scalar T -> 5 <= M -> size (toUtf8 T) <= Z.of_nat fuel ->
  returned (sendMessage M fuel T) = true
  /\ (exists parts,
        T = concat parts
        /\ sent (sendMessage M fuel T) = map toUtf8 parts
        /\ joinDecoded (sent (sendMessage M fuel T))
           = Some (concat (map dropBom parts)))
  /\ (~ In 65279 T -> joinDecoded (sent (sendMessage M fuel T)) = Some T).
Proof.
  intros HT HM Hfuel.
  assert (Hret : returned (sendMessage M fuel T) = true).
  { apply sendLoop_returns; try lia; auto. }
  split; [ exact Hret | ].
  destruct (sendMessage_pieces M T fuel HT) as (parts & rest & Es & E & _ & Hr);
    [ lia | ].
  rewrite (Hr Hret), app_nil_r in E.
  assert (Hj : joinDecoded (sent (sendMessage M fuel T))
               = Some (concat (map dropBom parts))).
  { rewrite Es. apply joinDecoded_pieces.
    apply Forall_concat_inv. rewrite <- E. exact HT. }
  split.
  - exists parts. repeat split; assumption.
  - intros Hno. rewrite Hj, map_dropBom_without, <- E; [ reflexivity | ].
    rewrite <- E. exact Hno.
Qed.

Lemma chunks_rejoin_to_text_witness :
  (Forall scalar fox /\ 5 <= 20 /\ size (toUtf8 fox) <= Z.of_nat 49)
  /\ returned (sendMessage 20 49 fox) = true
  /\ (exists parts,
        fox = concat parts
        /\ sent (sendMessage 20 49 fox) = map toUtf8 parts
        /\ joinDecoded (sent (sendMessage 20 49 fox))
           = Some (concat (map dropBom parts)))
  /\ (~ In 65279 fox -> joinDecoded (sent (sendMessage 20 49 fox)) = Some fox).
Proof.
  assert (H1 : Forall scalar fox)
    by (repeat constructor; vm_compute; intuition discriminate).
  assert (H2 : 5 <= 20) by lia.
  assert (H3 : size (toUtf8 fox) <= Z.of_nat 49)
    by (vm_compute; discriminate).
  split; [ auto | ].
  apply (chunks_rejoin_to_text 20 fox 49 H1 H2 H3).
Defined.

(** C1 fails at a frame limit of four bytes: on a text of two four-byte
    codepoints the loop sends one empty chunk after the other, never returns,
    and what it has sent never joins to the text.  It also fails on a text
    that begins with U+FEFF, at any limit: the one chunk of [markedText] at a
    limit of 20 is decoded without the mark. *)
Lemma limit_4_never_rejoins :
  (Forall scalar twoEmoji
   /\ forall fuel,
        returned (sendMessage 4 fuel twoEmoji) = false
        /\ joinDecoded (sent (sendMessage 4 fuel twoEmoji)) = Some []
        /\ joinDecoded (sent (sendMessage 4 fuel twoEmoji)) <> Some twoEmoji)
  /\ (Forall scalar markedText
      /\ sendMessage 20 0 markedText
         = {| sent := [[239; 187; 191; 97; 98]]; returned := true |}
      /\ joinDecoded (sent (sendMessage 20 0 markedText)) = Some [97; 98]
      /\ joinDecoded (sent (sendMessage 20 0 markedText)) <> Some markedText).
Proof.
  split; split.
  - repeat constructor; vm_compute; intuition discriminate.
  - intros fuel. unfold sendMessage. rewrite sendLoop_stuck.
    cbn [returned sent]. rewrite joinDecoded_empty.
    repeat split. discriminate.
  - repeat constructor; vm_compute; intuition discriminate.
  - repeat split. discriminate.
Qed.

(** C2: for every text and every frame limit of at least four bytes, however
    long [sendMessage] has run, the chunks it has sent are the UTF-8 encodings
    of consecutive pieces of the text (no chunk starts or ends inside a
    codepoint), each chunk has at most [M] bytes, and each chunk decodes on
    its own: [QString::fromUtf8] finds it well-formed and gives its piece,
    less a byte-order mark at the start of the piece.  Once the function has
    returned the pieces make up the whole text. *)
Theorem chunks_fit_and_decode M T fuel :
  Forall scalar T -> 4 <= M ->
  exists parts rest,
    sent (sendMessage M fuel T) = map toUtf8 parts
    /\ T = concat parts ++ rest
    /\ Forall (fun c => size c <= M /\ fromUtf8 c <> None)
              (sent (sendMessage M fuel T))
    /\ Forall (fun p => fromUtf8 (toUtf8 p) = Some (dropBom p)) parts
    /\ (returned (sendMessage M fuel T) = true -> rest = []).
Proof.
  intros HT HM.
  destruct (sendMessage_pieces M T fuel HT HM)
    as (parts & rest & E & Ec & Hf & Hr).
  assert (Hs : Forall (Forall scalar) parts).
  { apply Forall_concat_inv. rewrite Ec in HT.
    apply Forall_app in HT. apply HT. }
  exists parts, rest. rewrite E. repeat split; auto.
  - apply Forall_map. rewrite Forall_forall in Hf, Hs |- *.
    intros p Hp. split; [ apply Hf, Hp | ].
    apply fromUtf8_some, Hs, Hp.
  - eapply Forall_impl; [ | exact Hs ]. apply fromUtf8_toUtf8.
Qed.

Lemma chunks_fit_and_decode_witness :
  (Forall scalar mixedText /\ 4 <= 5)
  /\ exists parts rest,
       sent (sendMessage 5 16 mixedText) = map toUtf8 parts
       /\ mixedText = concat parts ++ rest
       /\ Forall (fun c => size c <= 5 /\ fromUtf8 c <> None)
                 (sent (sendMessage 5 16 mixedText))
       /\ Forall (fun p => fromUtf8 (toUtf8 p) = Some (dropBom p)) parts
       /\ (returned (sendMessage 5 16 mixedText) = true -> rest = []).
Proof.
  assert (H1 : Forall scalar mixedText)
    by (repeat constructor; vm_compute; intuition discriminate).
  assert (H2 : 4 <= 5) by lia.
  split; [ auto | ].
  apply (chunks_fit_and_decode 5 mixedText 16 H1 H2).
Defined.

Lemma findCodepointStart_le (a : QByteArray) n p :
  findCodepointStart a n p = -1 \/ findCodepointStart a n p <= p.
Proof.
  revert p. induction n as [ | n IH ]; intros p; [ left; reflexivity | ].
  cbn [findCodepointStart].
  destruct (masked (at_ a p) multibyteCodepoint
            && negb (masked (at_ a p) multibyteCodepointStart)).
  - destruct (IH (p - 1)) as [E | Hle]; [ left; exact E | right; lia ].
  - right. lia.
Qed.

(** C3: when the loop has to cut ([size byteArray > M + offset]) and a split
    character lies in the window of the second search, after the offset, the
    message is cut right after a split character of that window, the one
    nearest to the codepoint start the search began at; that character is a
    single byte and is the last byte of the chunk.  On the example text with
    a limit of 20 the first chunk is "The quick brown fox ", which ends with
    the space at position 19. *)
Theorem split_after_break_character :
  (forall M (a : QByteArray) off i,
     0 <= off -> size a > M + off ->
     searchLimit M off < i <= lastCodepointStartAt M a off ->
     off < i -> isSplitChar (at_ a i) = true ->
     exists j,
       i <= j <= lastCodepointStartAt M a off
       /\ isSplitChar (at_ a j) = true /\ at_ a j < 128
       /\ (forall k, j < k <= lastCodepointStartAt M a off ->
                     isSplitChar (at_ a k) = false)
       /\ splitPositionAt M a off = j + 1
       /\ off < splitPositionAt M a off <= M + off)
  /\ sendMessage 20 49 fox
     = {| sent := map toUtf8 [text "The quick brown fox ";
                              text "jumps over the lazy ";
                              text "dog again"];
          returned := true |}
  /\ splitPositionAt 20 (toUtf8 fox) 0 = 20
  /\ at_ (toUtf8 fox) 19 = 32.
Proof.
  split; [ | vm_compute; auto ].
  intros M a off i Hoff Hsz Hi Hoi Hs.
  unfold splitPositionAt.
  set (q := lastCodepointStartAt M a off) in *.
  assert (Hq : q <= M + off - 1).
  { destruct (findCodepointStart_le a 4 (M + off - 1)) as [E | Hle].
    - unfold q, lastCodepointStartAt in Hi |- *. lia.
    - exact Hle. }
  destruct (findSplit_spec a (Z.to_nat (q - searchLimit M off)) q)
    as [[_ Hnone] | (j & -> & Hj & Hsj & Hk)].
  - rewrite Hnone in Hs by lia. discriminate.
  - assert (Hij : i <= j).
    { destruct (Z.le_gt_cases i j) as [Hle | Hgt]; [ exact Hle | ].
      rewrite Hk in Hs by lia. discriminate. }
    replace (j + 1 <=? off) with false by (symmetry; apply Z.leb_gt; lia).
    replace (j + 1 >? M + off) with false
      by (symmetry; rewrite Z.gtb_ltb; apply Z.ltb_ge; lia).
    cbn [orb]. exists j.
    destruct (isSplitChar_single _ Hsj) as [_ Hascii].
    repeat split; auto; lia.
Qed.

Lemma split_after_break_character_witness :
  (0 <= 0 /\ size (toUtf8 fox) > 20 + 0
   /\ searchLimit 20 0 < 19 <= lastCodepointStartAt 20 (toUtf8 fox) 0
   /\ 0 < 19 /\ isSplitChar (at_ (toUtf8 fox) 19) = true)
  /\ exists j,
       19 <= j <= lastCodepointStartAt 20 (toUtf8 fox) 0
       /\ isSplitChar (at_ (toUtf8 fox) j) = true
       /\ at_ (toUtf8 fox) j < 128
       /\ (forall k, j < k <= lastCodepointStartAt 20 (toUtf8 fox) 0 ->
                     isSplitChar (at_ (toUtf8 fox) k) = false)
       /\ splitPositionAt 20 (toUtf8 fox) 0 = j + 1
       /\ 0 < splitPositionAt 20 (toUtf8 fox) 0 <= 20 + 0.
Proof.
  assert (H1 : 0 <= 0) by lia.
  assert (H2 : size (toUtf8 fox) > 20 + 0) by reflexivity.
  assert (H3 : searchLimit 20 0 < 19 <= lastCodepointStartAt 20 (toUtf8 fox) 0)
    by (vm_compute; split; [ reflexivity | discriminate ]).
  assert (H4 : 0 < 19) by lia.
  assert (H5 : isSplitChar (at_ (toUtf8 fox) 19) = true) by reflexivity.
  split; [ auto | ].
  apply (proj1 split_after_break_character 20 (toUtf8 fox) 0 19 H1 H2 H3 H4 H5).
Defined.

(** C4, as amended: a text that is not empty and whose encoding has at most
    [M] bytes is sent as exactly one chunk, its whole encoding; for the empty
    text nothing is sent.  Either way the function returns without entering
    the loop. *)
Theorem short_text_is_one_chunk M T fuel :
  size (toUtf8 T) <= M ->
  returned (sendMessage M fuel T) = true
  /\ (T <> [] -> sent (sendMessage M fuel T) = [toUtf8 T])
  /\ (T = [] -> sent (sendMessage M fuel T) = []).
Proof.
  intros Hfit.
  assert (E : sendMessage M fuel T
              = if size (toUtf8 T) - 0 >? 0
                then {| sent := [toUtf8 T]; returned := true |}
                else {| sent := []; returned := true |}).
  { unfold sendMessage.
    destruct fuel; cbn [sendLoop];
      (replace (size (toUtf8 T) >? M + 0) with false
         by (symmetry; rewrite Z.gtb_ltb; apply Z.ltb_ge; lia));
      rewrite mid_whole; reflexivity. }
  rewrite E. clear E.
  destruct (Z.gtb_spec (size (toUtf8 T) - 0) 0) as [Hpos | Hzero];
    cbn [sent returned]; (split; [ reflexivity | split ]).
  - intros _. reflexivity.
  - intros ->. cbn in Hpos. lia.
  - intros Hne. exfalso. apply Hne. apply toUtf8_empty. lia.
  - intros _. reflexivity.
Qed.

Lemma short_text_is_one_chunk_witness :
  size (toUtf8 fox) <= 49
  /\ returned (sendMessage 49 0 fox) = true
  /\ (fox <> [] -> sent (sendMessage 49 0 fox) = [toUtf8 fox])
  /\ (fox = [] -> sent (sendMessage 49 0 fox) = []).
Proof.
  assert (H1 : size (toUtf8 fox) <= 49) by (vm_compute; discriminate).
  split; [ exact H1 | ].
  apply (short_text_is_one_chunk 49 fox 0 H1).
Defined.

(** C4 fails on the empty text: its encoding has zero bytes, which is at most
    any [M], and [sendMessage] sends no chunk at all. *)
Lemma empty_text_is_no_chunk :
  size (toUtf8 []) <= 4
  /\ sendMessage 4 1 [] = {| sent := []; returned := true |}
  /\ List.length (sent (sendMessage 4 1 [])) <> 1%nat.
Proof.
  repeat split; vm_compute; discriminate.
Qed.

(** C5, as amended: for every text and every frame limit of at least five
    bytes, each iteration of the loop cuts strictly after the current offset
    (and at most [M] bytes after it), so the number of bytes left strictly
    decreases, and the loop ends: [sendMessage] returns within as many
    iterations as the encoded text has bytes. *)
Theorem loop_makes_progress_and_ends M T :
  Forall scalar T -> 5 <= M ->
  (forall off, 0 <= off -> size (toUtf8 T) > M + off ->
     off < splitPositionAt M (toUtf8 T) off <= M + off
     /\ size (toUtf8 T) - splitPositionAt M (toUtf8 T) off
        < size (toUtf8 T) - off)
  /\ (forall fuel, size (toUtf8 T) <= Z.of_nat fuel ->
        returned (sendMessage M fuel T) = true).
Proof.
  intros HT HM. split.
  - intros off Hoff Hsz.
    destruct (splitPosition_spec M T HT) with (off := off)
      as (Hsp & _ & Hlt); try lia.
  - intros fuel Hfuel. apply sendLoop_returns; try lia; auto.
Qed.

Lemma loop_makes_progress_and_ends_witness :
  (Forall scalar twoEmoji /\ 5 <= 5)
  /\ (forall off, 0 <= off -> size (toUtf8 twoEmoji) > 5 + off ->
        off < splitPositionAt 5 (toUtf8 twoEmoji) off <= 5 + off
        /\ size (toUtf8 twoEmoji) - splitPositionAt 5 (toUtf8 twoEmoji) off
           < size (toUtf8 twoEmoji) - off)
  /\ (forall fuel, size (toUtf8 twoEmoji) <= Z.of_nat fuel ->
        returned (sendMessage 5 fuel twoEmoji) = true).
Proof.
  assert (H1 : Forall scalar twoEmoji)
    by (repeat constructor; vm_compute; intuition discriminate).
  assert (H2 : 5 <= 5) by lia.
  split; [ auto | ].
  apply (loop_makes_progress_and_ends 5 twoEmoji H1 H2).
Defined.

(** C5 fails at a frame limit of four bytes: on a text of two four-byte
    codepoints the loop has to cut at offset 0, cuts at 0 again, and runs for
    ever. *)
Lemma loop_stalls_at_4 :
  Forall scalar twoEmoji
  /\ size (toUtf8 twoEmoji) > 4 + 0
  /\ lastCodepointStartAt 4 (toUtf8 twoEmoji) 0 = 0
  /\ splitPositionAt 4 (toUtf8 twoEmoji) 0 = 0
  /\ forall fuel,
       sendMessage 4 fuel twoEmoji
       = {| sent := repeat [] fuel; returned := false |}.
Proof.
  split; [ repeat constructor; vm_compute; intuition discriminate | ].
  repeat split. exact sendLoop_stuck.
Qed.

(** * Identifier Codec *)

Lemma nibbles b :
  byte_ok b ->
  let lo := Z.land b 15 in
  let hi := Z.land (Z.shiftr b 4) 15 in
  fromHexDigit (hexDigit lo) = lo /\ lo <> -1
  /\ fromHexDigit (hexDigit hi) = hi /\ hi <> -1
  /\ Z.lor lo (Z.shiftl hi 4) = b
  /\ 0 <= lo <= 15 /\ 0 <= hi <= 15.
Proof.
  intros Hb lo hi.
  apply (byte_cases nibblesOk) in Hb; [ | vm_compute; reflexivity ].
  unfold nibblesOk in Hb. fold lo hi in Hb.
  repeat (apply andb_prop in Hb; destruct Hb as [Hb ?]).
  repeat match goal with
  | H : negb (_ =? _) = true |- _ =>
    apply negb_true_iff, Z.eqb_neq in H
  | H : (_ =? _) = true |- _ => apply Z.eqb_eq in H
  | H : (_ <=? _) = true |- _ => apply Z.leb_le in H
  end.
  repeat split; assumption.
Qed.

Lemma hexDigit_lower n : 0 <= n <= 15 -> lowerHexDigit (hexDigit n).
Proof.
  intros Hn. unfold lowerHexDigit, hexDigit.
  destruct (Z.leb_spec n 9); lia.
Qed.

Lemma toHex_lower B : Forall byte_ok B -> Forall lowerHexDigit (toHex B).
Proof.
  induction 1 as [ | b B Hb _ IH ]; [ constructor | ].
  unfold toHex in *. cbn [flat_map app].
  destruct (nibbles b Hb) as (_ & _ & _ & _ & _ & Hlo & Hhi).
  constructor; [ apply hexDigit_lower, Hhi | ].
  constructor; [ apply hexDigit_lower, Hlo | exact IH ].
Qed.

Lemma size_toHex B : size (toHex B) = 2 * size B.
Proof.
  induction B as [ | b B IH ]; [ reflexivity | ].
  unfold toHex in *. cbn [flat_map app]. rewrite !size_cons, IH. lia.
Qed.

Lemma fromHexLoop_toHex B :
  Forall byte_ok B ->
  forall res, fromHexLoop (rev (toHex B)) true res = B ++ res.
Proof.
  induction B as [ | b B IH ] using rev_ind; intros HB res; [ reflexivity | ].
  apply Forall_app in HB. destruct HB as [HB Hb].
  inversion Hb as [ | ? ? Hb' _ ]; subst.
  unfold toHex in *. rewrite flat_map_app, rev_app_distr.
  cbn [flat_map app rev fromHexLoop].
  destruct (nibbles b Hb') as (E1 & N1 & E2 & N2 & E & _).
  rewrite E1, E2.
  apply Z.eqb_neq in N1, N2. rewrite N1, N2, E.
  rewrite IH by exact HB. rewrite <- app_assoc. reflexivity.
Qed.

Lemma fromHex_toHex B : Forall byte_ok B -> fromHex (toHex B) = B.
Proof.
  intros HB. unfold fromHex. rewrite fromHexLoop_toHex by exact HB.
  apply app_nil_r.
Qed.

Lemma lowerHexDigit_cases c :
  lowerHexDigit c ->
  (c = 48 \/ c = 49 \/ c = 50 \/ c = 51 \/ c = 52 \/ c = 53 \/ c = 54
   \/ c = 55 \/ c = 56 \/ c = 57)
  \/ (c = 97 \/ c = 98 \/ c = 99 \/ c = 100 \/ c = 101 \/ c = 102).
Proof. unfold lowerHexDigit. lia. Qed.

Lemma lower_upper_hex s :
  Forall lowerHexDigit s -> toLatin1 (toLower (toUpper s)) = s.
Proof.
  induction 1 as [ | c s Hc _ IH ]; [ reflexivity | ].
  unfold toLatin1, toLower, toUpper in *. cbn [map]. rewrite IH. f_equal.
  destruct (lowerHexDigit_cases c Hc) as [E | E];
    repeat (destruct E as [-> | E]; [ reflexivity | ]); subst; reflexivity.
Qed.

Lemma toUpper_hex s :
  Forall lowerHexDigit s -> Forall upperHexDigit (toUpper s).
Proof.
  induction 1 as [ | c s Hc _ IH ]; [ constructor | ].
  unfold toUpper in *. cbn [map]. constructor; [ | exact IH ].
  unfold upperHexDigit.
  destruct (lowerHexDigit_cases c Hc) as [E | E];
    repeat (destruct E as [-> | E]; [ cbn; lia | ]); subst; cbn; lia.
Qed.

Lemma size_map (f : Z -> Z) s : size (map f s) = size s.
Proof. unfold size. rewrite length_map. reflexivity. Qed.

(** C6: for every byte sequence of the length of a user id, the text made by
    [CUserId::toString] consists of upper-case hexadecimal digits, twice as
    many as there are bytes, and constructing a [CUserId] from that text
    yields a buffer holding the same bytes and reporting the same size. *)
Theorem hex_round_trip TOX_CLIENT_ID_SIZE B :
  Forall byte_ok B -> size B = TOX_CLIENT_ID_SIZE ->
  TOX_CLIENT_ID_SIZE < 65536 ->
  CUserId.new TOX_CLIENT_ID_SIZE (CUserId.toString TOX_CLIENT_ID_SIZE B)
  = Some {| CData.data := map Some B; CData.size_ := size B |}
  /\ CData.fromString (CUserId.toString TOX_CLIENT_ID_SIZE B) = B
  /\ size (CUserId.toString TOX_CLIENT_ID_SIZE B) = 2 * size B
  /\ Forall upperHexDigit (CUserId.toString TOX_CLIENT_ID_SIZE B).
Proof.
  intros HB Hsize Hsmall.
  assert (Ecut : firstn (Z.to_nat TOX_CLIENT_ID_SIZE) B = B).
  { rewrite <- Hsize. unfold size. rewrite Nat2Z.id. apply firstn_all. }
  assert (Edec : CData.fromString (CUserId.toString TOX_CLIENT_ID_SIZE B) = B).
  { unfold CData.fromString, CUserId.toString, CData.toString.
    rewrite Ecut, lower_upper_hex by (apply toHex_lower, HB).
    apply fromHex_toHex, HB. }
  repeat split.
  - unfold CUserId.new, CData.new. rewrite Edec.
    replace (size B <=? TOX_CLIENT_ID_SIZE) with true
      by (symmetry; apply Z.leb_le; lia).
    rewrite Hsize, Z.sub_diag. cbn [Z.to_nat repeat]. rewrite app_nil_r.
    rewrite Z.mod_small by (pose proof (size_nonneg B); lia).
    reflexivity.
  - exact Edec.
  - unfold CUserId.toString, CData.toString, toUpper.
    rewrite Ecut, size_map. apply size_toHex.
  - unfold CUserId.toString, CData.toString. rewrite Ecut.
    apply toUpper_hex, toHex_lower, HB.
Qed.

Lemma hex_round_trip_witness :
  (Forall byte_ok [0; 171; 255; 16] /\ size [0; 171; 255; 16] = 4
   /\ 4 < 65536)
  /\ CUserId.new 4 (CUserId.toString 4 [0; 171; 255; 16])
     = Some {| CData.data := map Some [0; 171; 255; 16];
               CData.size_ := size [0; 171; 255; 16] |}
  /\ CData.fromString (CUserId.toString 4 [0; 171; 255; 16])
     = [0; 171; 255; 16]
  /\ size (CUserId.toString 4 [0; 171; 255; 16])
     = 2 * size [0; 171; 255; 16]
  /\ Forall upperHexDigit (CUserId.toString 4 [0; 171; 255; 16]).
Proof.
  assert (H1 : Forall byte_ok [0; 171; 255; 16])
    by (repeat constructor; vm_compute; discriminate).
  assert (H2 : size [0; 171; 255; 16] = 4) by reflexivity.
  assert (H3 : 4 < 65536) by lia.
  split; [ auto | ].
  apply (hex_round_trip 4 [0; 171; 255; 16] H1 H2 H3).
Defined.

Ltac split_ifs :=
  repeat match goal with
  | |- context [if ?b then _ else _] =>
    lazymatch b with
    | context [if _ then _ else _] => fail
    | _ => destruct b eqn:?
    end
  end.

Ltac bool_hyps :=
  repeat match goal with
  | H : (_ && _) = true |- _ => apply andb_prop in H; destruct H
  | H : (_ && _) = false |- _ => apply andb_false_iff in H; destruct H
  | H : negb _ = true |- _ => apply negb_true_iff in H
  | H : negb _ = false |- _ => apply negb_false_iff in H
  | H : (_ <=? _) = true |- _ => apply Z.leb_le in H
  | H : (_ <=? _) = false |- _ => apply Z.leb_gt in H
  | H : (_ <? _) = true |- _ => apply Z.ltb_lt in H
  | H : (_ <? _) = false |- _ => apply Z.ltb_ge in H
  | H : (_ =? _) = true |- _ => apply Z.eqb_eq in H
  | H : (_ =? _) = false |- _ => apply Z.eqb_neq in H
  end.

Lemma hexChar_lower c : hexChar (latin1Char (lowerChar c)) = hexChar c.
Proof.
  unfold hexChar, latin1Char, lowerChar, fromHexDigit.
  split_ifs; bool_hyps; try reflexivity; try lia;
    repeat match goal with
    | |- context [?x =? ?y] => destruct (Z.eqb_spec x y)
    end; try reflexivity; lia.
Qed.

Lemma lowerChar_upper c : lowerChar (upperChar c) = lowerChar c.
Proof.
  unfold lowerChar, upperChar. split_ifs; bool_hyps; lia.
Qed.

Lemma lowerChar_lower c : lowerChar (lowerChar c) = lowerChar c.
Proof.
  unfold lowerChar. split_ifs; bool_hyps; lia.
Qed.

Lemma fromHexLoop_skips pending :
  forall odd_digit res,
  fromHexLoop pending odd_digit res
  = fromHexLoop (filter hexChar pending) odd_digit res.
Proof.
  induction pending as [ | ch pending IH ]; intros odd_digit res;
    [ reflexivity | ].
  cbn [filter fromHexLoop]. unfold hexChar at 1.
  destruct (fromHexDigit ch =? -1) eqn:E; cbn [negb].
  - apply IH.
  - cbn [fromHexLoop]. rewrite E.
    destruct odd_digit; [ apply IH | ].
    destruct res; apply IH.
Qed.

Lemma filter_rev_hex s : filter hexChar (rev s) = rev (filter hexChar s).
Proof.
  induction s as [ | c s IH ]; [ reflexivity | ].
  cbn [rev filter]. rewrite filter_app, IH. cbn [filter].
  destruct (hexChar c); [ reflexivity | apply app_nil_r ].
Qed.

Lemma fromHex_skips s : fromHex s = fromHex (filter hexChar s).
Proof.
  unfold fromHex. rewrite fromHexLoop_skips, filter_rev_hex. reflexivity.
Qed.

Lemma filter_hex_lower s :
  filter hexChar (toLatin1 (toLower s))
  = toLatin1 (toLower (filter hexChar s)).
Proof.
  induction s as [ | c s IH ]; [ reflexivity | ].
  unfold toLatin1, toLower in *. cbn [map filter].
  rewrite hexChar_lower, IH. destruct (hexChar c); reflexivity.
Qed.

Lemma fromHexLoop_size pending :
  forall odd_digit res,
  (odd_digit = false -> res <> []) ->
  size (fromHexLoop pending odd_digit res)
  = size res
    + (size (filter hexChar pending) + (if odd_digit then 1 else 0)) / 2.
Proof.
  induction pending as [ | ch pending IH ]; intros odd_digit res Hres.
  - cbn [fromHexLoop filter]. destruct odd_digit; cbn; lia.
  - cbn [filter fromHexLoop]. unfold hexChar at 1.
    destruct (fromHexDigit ch =? -1) eqn:E; cbn [negb].
    + apply IH, Hres.
    + rewrite size_cons.
      pose proof (size_nonneg (filter hexChar pending)) as Hn.
      destruct odd_digit.
      * rewrite IH by (intros _; discriminate). rewrite size_cons.
        Z.div_mod_to_equations. lia.
      * destruct res as [ | r res ]; [ exfalso; apply Hres; reflexivity | ].
        rewrite IH by discriminate. rewrite !size_cons.
        Z.div_mod_to_equations. lia.
Qed.

Lemma fromHex_size s :
  size (fromHex s) = (size (filter hexChar s) + 1) / 2.
Proof.
  unfold fromHex. rewrite fromHexLoop_size by discriminate.
  rewrite filter_rev_hex. unfold size. rewrite length_rev. reflexivity.
Qed.

Lemma fromString_size data :
  size (CData.fromString data) = (size (filter hexChar data) + 1) / 2.
Proof.
  unfold CData.fromString.
  rewrite fromHex_size, filter_hex_lower.
  unfold toLatin1, toLower. rewrite !size_map. reflexivity.
Qed.

(** C7, as amended: decoding reports no error.  [fromString] decodes every
    text: characters that are not hexadecimal digits are skipped, so the
    bytes decoded are those of the digits alone, one byte for every two
    digits and one for a digit left over, and the case of the letters does
    not matter.  For every text with at most [2 * byteSize] hexadecimal
    digits, whether its decoded length is the expected one or less and
    whatever other characters it holds, the constructor yields an object: its
    buffer begins with the decoded bytes, the bytes after them are left as
    allocated, and it reports the decoded length. *)
Theorem decoding_skips_and_accepts (data : QString) (byteSize : Z) :
  (CData.fromString data = CData.fromString (filter hexChar data)
   /\ size (CData.fromString data) = (size (filter hexChar data) + 1) / 2
   /\ CData.fromString (toUpper data) = CData.fromString data
   /\ CData.fromString (toLower data) = CData.fromString data)
  /\ (size (filter hexChar data) <= 2 * byteSize ->
      CData.new data byteSize
      = Some {| CData.data :=
                  map Some (CData.fromString data)
                  ++ repeat None
                       (Z.to_nat
                          (byteSize
                           - (size (filter hexChar data) + 1) / 2));
                CData.size_ :=
                  ((size (filter hexChar data) + 1) / 2) mod 65536 |}).
Proof.
  split; [ repeat split | ].
  - unfold CData.fromString.
    rewrite fromHex_skips, filter_hex_lower. reflexivity.
  - apply fromString_size.
  - unfold CData.fromString. do 2 f_equal.
    unfold toLower, toUpper. rewrite map_map. apply map_ext.
    intros c. apply lowerChar_upper.
  - unfold CData.fromString. do 2 f_equal.
    unfold toLower. rewrite map_map. apply map_ext.
    intros c. apply lowerChar_lower.
  - intros Hfit. unfold CData.new. rewrite !fromString_size.
    replace ((size (filter hexChar data) + 1) / 2 <=? byteSize) with true
      by (symmetry; apply Z.leb_le; Z.div_mod_to_equations; lia).
    reflexivity.
Qed.

Lemma decoding_skips_and_accepts_witness :
  size (filter hexChar (text "0a:1B-c")) <= 2 * 4
  /\ CData.new (text "0a:1B-c") 4
     = Some {| CData.data :=
                 map Some (CData.fromString (text "0a:1B-c"))
                 ++ repeat None
                      (Z.to_nat
                         (4 - (size (filter hexChar (text "0a:1B-c")) + 1)
                              / 2));
               CData.size_ :=
                 ((size (filter hexChar (text "0a:1B-c")) + 1) / 2)
                 mod 65536 |}.
Proof.
  assert (H1 : size (filter hexChar (text "0a:1B-c")) <= 2 * 4)
    by (vm_compute; discriminate).
  split; [ exact H1 | ].
  apply (proj2 (decoding_skips_and_accepts (text "0a:1B-c") 4) H1).
Defined.

(** C7 fails: a text of two digits, where 32 bytes are expected, and a text
    with characters that are no digits both yield an object, with one and
    with two decoded bytes. *)
Lemma decoding_accepts_wrong_length_and_other_characters :
  CData.new (text "AB") 32
  = Some {| CData.data := Some 171 :: repeat None 31; CData.size_ := 1 |}
  /\ CData.new (text "1G2x3:4") 2
     = Some {| CData.data := [Some 18; Some 52]; CData.size_ := 2 |}
  /\ forallb hexChar (text "1G2x3:4") = false.
Proof.
  repeat split.
Qed.

(** * Tick Loop *)

(** C8: from the initial value [false] of the static, the answers online,
    online, offline, offline, online make the successive connectivity checks
    emit connected, disconnected, connected and nothing else; in general a
    check emits one signal when the answer differs from the remembered value,
    none when it repeats it, and remembers the answer. *)
Theorem connectivity_is_edge_triggered :
  checkConnections [1; 1; 0; 0; 1] false
  = [connected; disconnected; connected]
  /\ forall tox_isconnected isConnected,
       let online := negb (tox_isconnected =? 0) in
       checkConnection tox_isconnected isConnected
       = (if Bool.eqb online isConnected then []
          else if online then [connected] else [disconnected],
          online).
Proof.
  split; [ reflexivity | ].
  intros r s. cbv zeta. unfold checkConnection.
  destruct (r =? 0), s; reflexivity.
Qed.

(** * Callback Adapter *)

(** C10: a user status that is none of the three the handler names makes it
    emit one [friendStatusChanged] for that friend, with status [Online]. *)
Theorem unknown_user_status_is_online
    TOX_USERSTATUS_NONE TOX_USERSTATUS_AWAY TOX_USERSTATUS_BUSY
    friendId userstatus :
  userstatus <> TOX_USERSTATUS_NONE ->
  userstatus <> TOX_USERSTATUS_AWAY ->
  userstatus <> TOX_USERSTATUS_BUSY ->
  onUserStatusChanged TOX_USERSTATUS_NONE TOX_USERSTATUS_AWAY
    TOX_USERSTATUS_BUSY friendId userstatus
  = [friendStatusChanged friendId Online].
Proof.
  intros H1 H2 H3. unfold onUserStatusChanged.
  apply Z.eqb_neq in H1, H2, H3. rewrite H1, H2, H3. reflexivity.
Qed.

Lemma unknown_user_status_is_online_witness :
  (3 <> 0 /\ 3 <> 1 /\ 3 <> 2)
  /\ onUserStatusChanged 0 1 2 7 3 = [friendStatusChanged 7 Online].
Proof.
  assert (H1 : 3 <> 0) by lia.
  assert (H2 : 3 <> 1) by lia.
  assert (H3 : 3 <> 2) by lia.
  split; [ auto | ].
  apply (unknown_user_status_is_online 0 1 2 7 3 H1 H2 H3).
Defined.

(** * Friend Directory Sync *)

Section FriendSignals.

Variable TOX_CLIENT_ID_SIZE : Z.
Variable tox : Tox.

Lemma loadUsername_about f :
  Forall (fun s => signalFriend s = Some f) (loadUsername tox f).
Proof.
  unfold loadUsername.
  destruct (tox_get_name_size tox f >? 0); [ | constructor ].
  destruct (tox_get_name tox f) as [ret name].
  destruct (ret =? _); repeat constructor.
Qed.

Lemma loadStatusMessage_about f :
  Forall (fun s => signalFriend s = Some f) (loadStatusMessage tox f).
Proof.
  unfold loadStatusMessage.
  destruct (tox_get_status_message_size tox f >? 0); [ | constructor ].
  destruct (tox_get_status_message tox f _) as [ret message].
  destruct (ret =? _); repeat constructor.
Qed.

Lemma checkLastOnline_about f :
  Forall (fun s => signalFriend s = Some f) (checkLastOnline tox f).
Proof.
  unfold checkLastOnline. destruct (0 <? _)%N; repeat constructor.
Qed.

(** Every signal of one iteration carries the handle of its friend. *)
Lemma loadFriend_about f :
  Forall (fun s => signalFriend s = Some f)
         (loadFriend TOX_CLIENT_ID_SIZE tox f).
Proof.
  unfold loadFriend. destruct (tox_get_client_id tox f) as [ret clientId].
  destruct (ret =? 0); [ | constructor ].
  repeat (apply Forall_app; split);
    auto using loadUsername_about, loadStatusMessage_about,
      checkLastOnline_about.
Qed.

Lemma filter_about_same f l :
  Forall (fun s => signalFriend s = Some f) l -> filter (about f) l = l.
Proof.
  induction 1 as [ | s l Hs _ IH ]; [ reflexivity | ].
  cbn [filter]. unfold about at 1. rewrite Hs, Z.eqb_refl, IH. reflexivity.
Qed.

Lemma filter_about_other f g l :
  f <> g ->
  Forall (fun s => signalFriend s = Some g) l -> filter (about f) l = [].
Proof.
  intros Hne. induction 1 as [ | s l Hs _ IH ]; [ reflexivity | ].
  cbn [filter]. unfold about at 1. rewrite Hs.
  replace (g =? f) with false by (symmetry; apply Z.eqb_neq; congruence).
  exact IH.
Qed.

Lemma filter_about_friends f ids :
  NoDup ids -> In f ids ->
  filter (about f) (flat_map (loadFriend TOX_CLIENT_ID_SIZE tox) ids)
  = loadFriend TOX_CLIENT_ID_SIZE tox f.
Proof.
  induction 1 as [ | g ids Hg Hnd IH ]; intros Hin; [ destruct Hin | ].
  cbn [flat_map]. rewrite filter_app.
  destruct (Z.eq_dec f g) as [<- | Hne].
  - rewrite filter_about_same by apply loadFriend_about.
    assert (E : filter (about f)
                  (flat_map (loadFriend TOX_CLIENT_ID_SIZE tox) ids) = []).
    { clear IH Hnd Hin. induction ids as [ | h ids IH ]; [ reflexivity | ].
      cbn [flat_map]. rewrite filter_app.
      rewrite (filter_about_other f h); [ | | apply loadFriend_about ].
      - apply IH. intros Hin. apply Hg. right. exact Hin.
      - intros ->. apply Hg. left. reflexivity. }
    rewrite E. apply app_nil_r.
  - rewrite (filter_about_other f g _ Hne) by apply loadFriend_about.
    destruct Hin as [-> | Hin]; [ congruence | ]. apply IH, Hin.
Qed.

Lemma loadFriends_all :
  Z.of_nat (List.length (friendlist tox)) < 2147483648 ->
  loadFriends TOX_CLIENT_ID_SIZE tox
  = flat_map (loadFriend TOX_CLIENT_ID_SIZE tox) (friendlist tox).
Proof.
  intros Hlen. unfold loadFriends, tox_count_friendlist.
  rewrite Z.mod_small by lia.
  destruct (friendlist tox) as [ | f l ] eqn:E; [ reflexivity | ].
  rewrite <- E in *.
  replace (Z.of_nat (List.length (friendlist tox)) >? 0) with true
    by (symmetry; rewrite Z.gtb_ltb; apply Z.ltb_lt; rewrite E; cbn; lia).
  replace (Z.of_nat (List.length (friendlist tox)) <? 2147483648) with true
    by (symmetry; apply Z.ltb_lt; exact Hlen).
  rewrite Nat2Z.id, firstn_all. reflexivity.
Qed.

Lemma loadFriend_ranks f clientId :
  tox_get_client_id tox f = (0, clientId) ->
  exists names messages seen,
    loadFriend TOX_CLIENT_ID_SIZE tox f
    = friendAdded f (CUserId.toString TOX_CLIENT_ID_SIZE clientId)
      :: names ++ messages ++ seen
    /\ map signalRank names = (if nameAvailable tox f then [1] else [])%nat
    /\ map signalRank messages
       = (if statusMessageAvailable tox f then [2] else [])%nat
    /\ seen = (if (tox_get_last_online tox f =? 0)%N then []
               else [friendLastSeenChanged f
                       (tox_get_last_online tox f mod 4294967296)%N]).
Proof.
  intros Eid. unfold loadFriend. rewrite Eid. cbn [Z.eqb].
  exists (loadUsername tox f), (loadStatusMessage tox f),
    (checkLastOnline tox f).
  repeat split.
  - unfold loadUsername, nameAvailable.
    destruct (tox_get_name_size tox f >? 0); [ | reflexivity ].
    destruct (tox_get_name tox f) as [ret name]. cbn [fst andb].
    destruct (ret =? _); reflexivity.
  - unfold loadStatusMessage, statusMessageAvailable.
    destruct (tox_get_status_message_size tox f >? 0); [ | reflexivity ].
    destruct (tox_get_status_message tox f _) as [ret message].
    cbn [fst andb]. destruct (ret =? _); reflexivity.
  - unfold checkLastOnline.
    destruct (N.eqb_spec (tox_get_last_online tox f) 0) as [-> | Hne];
      [ reflexivity | ].
    replace (0 <? tox_get_last_online tox f)%N with true
      by (symmetry; apply N.ltb_lt; lia).
    reflexivity.
Qed.

End FriendSignals.

(** C9: for a friend of the engine's list whose client id the engine hands
    out, the signals of [loadFriends] about that friend are those of its own
    iteration, in the order added, name loaded (if and only if a name is
    available), status message loaded (if and only if one is available), last
    seen changed (if and only if the engine's timestamp is not zero).  A
    friend with a name and a status message and a zero timestamp yields
    exactly added, name loaded, status message loaded. *)
Theorem friend_signals_in_order TOX_CLIENT_ID_SIZE tox f clientId :
  tox_get_client_id tox f = (0, clientId) ->
  NoDup (friendlist tox) -> In f (friendlist tox) ->
  Z.of_nat (List.length (friendlist tox)) < 2147483648 ->
  let signals := filter (about f) (loadFriends TOX_CLIENT_ID_SIZE tox) in
  signals = loadFriend TOX_CLIENT_ID_SIZE tox f
  /\ map signalRank signals
     = ([0] ++ (if nameAvailable tox f then [1] else [])
        ++ (if statusMessageAvailable tox f then [2] else [])
        ++ (if (tox_get_last_online tox f =? 0)%N then [] else [3]))%nat
  /\ (nameAvailable tox f = true ->
      statusMessageAvailable tox f = true ->
      tox_get_last_online tox f = 0%N ->
      signals
      = [friendAdded f (CUserId.toString TOX_CLIENT_ID_SIZE clientId);
         friendUsernameLoaded f
           (CString.toString (snd (tox_get_name tox f))
              (tox_get_name_size tox f));
         friendStatusMessageLoaded f
           (CString.toString
              (snd (tox_get_status_message tox f
                      (tox_get_status_message_size tox f)))
              (tox_get_status_message_size tox f))]).
Proof.
  intros Eid Hnd Hin Hlen signals.
  assert (E : signals = loadFriend TOX_CLIENT_ID_SIZE tox f).
  { unfold signals. rewrite loadFriends_all by exact Hlen.
    apply filter_about_friends; assumption. }
  rewrite E. split; [ reflexivity | ]. split.
  - destruct (loadFriend_ranks TOX_CLIENT_ID_SIZE tox f clientId Eid)
      as (names & messages & seen & -> & En & Em & ->).
    cbn [map app signalRank]. rewrite !map_app, En, Em.
    destruct (tox_get_last_online tox f =? 0)%N; reflexivity.
  - intros Hname Hmessage Hseen.
    unfold nameAvailable in Hname. unfold statusMessageAvailable in Hmessage.
    apply andb_prop in Hname, Hmessage.
    destruct Hname as [Hn1 Hn2]. destruct Hmessage as [Hm1 Hm2].
    unfold loadFriend, loadUsername, loadStatusMessage, checkLastOnline.
    rewrite Eid, Hn1, Hm1, Hseen. cbn [Z.eqb N.ltb N.compare].
    destruct (tox_get_name tox f) as [ret name].
    destruct (tox_get_status_message tox f _) as [ret' message].
    cbn [fst snd] in *. rewrite Hn2, Hm2. reflexivity.
Qed.

Lemma friend_signals_in_order_witness :
  (tox_get_client_id twoFriends 5 = (0, [5; 171])
   /\ NoDup (friendlist twoFriends) /\ In 5 (friendlist twoFriends)
   /\ Z.of_nat (List.length (friendlist twoFriends)) < 2147483648)
  /\ let signals := filter (about 5) (loadFriends 2 twoFriends) in
     signals = loadFriend 2 twoFriends 5
     /\ map signalRank signals
        = ([0] ++ (if nameAvailable twoFriends 5 then [1] else [])
           ++ (if statusMessageAvailable twoFriends 5 then [2] else [])
           ++ (if (tox_get_last_online twoFriends 5 =? 0)%N then []
               else [3]))%nat
     /\ (nameAvailable twoFriends 5 = true ->
         statusMessageAvailable twoFriends 5 = true ->
         tox_get_last_online twoFriends 5 = 0%N ->
         signals
         = [friendAdded 5 (CUserId.toString 2 [5; 171]);
            friendUsernameLoaded 5
              (CString.toString (snd (tox_get_name twoFriends 5))
                 (tox_get_name_size twoFriends 5));
            friendStatusMessageLoaded 5
              (CString.toString
                 (snd (tox_get_status_message twoFriends 5
                         (tox_get_status_message_size twoFriends 5)))
                 (tox_get_status_message_size twoFriends 5))]).
Proof.
  assert (H1 : tox_get_client_id twoFriends 5 = (0, [5; 171]))
    by reflexivity.
  assert (H2 : NoDup (friendlist twoFriends)).
  { cbn. repeat constructor; cbn; lia. }
  assert (H3 : In 5 (friendlist twoFriends)) by (left; reflexivity).
  assert (H4 : Z.of_nat (List.length (friendlist twoFriends)) < 2147483648)
    by reflexivity.
  split; [ auto | ].
  apply (friend_signals_in_order 2 twoFriends 5 [5; 171] H1 H2 H3 H4).
Defined.

(** * Further properties of the message chunker *)

Lemma size_mid (a : QByteArray) off len :
  0 <= off -> 0 <= len -> off + len <= size a -> size (mid a off len) = len.
Proof.
  unfold mid, size. intros Hoff Hlen Hfit.
  rewrite length_firstn, length_skipn. lia.
Qed.

Section ChunkShapes.

Variable M : Z.
Variable a : QByteArray.
Variable P : QByteArray -> Prop.

(** What holds of the chunk of every iteration holds of every chunk sent but,
    possibly, the one sent after the loop. *)
Lemma sendLoop_body :
  (forall off, 0 <= off -> size a > M + off ->
     off <= splitPositionAt M a off
     /\ P (mid a off (splitPositionAt M a off - off))) ->
  forall fuel off, 0 <= off ->
  exists body tail,
    sent (sendLoop M a fuel off) = body ++ tail
    /\ Forall P body /\ (List.length tail <= 1)%nat.
Proof.
  intros Hstep.
  assert (Hend : forall off,
            exists body tail,
              sent (if size a - off >? 0
                    then {| sent := [mid a off (size a - off)];
                            returned := true |}
                    else {| sent := []; returned := true |})
              = body ++ tail
              /\ Forall P body /\ (List.length tail <= 1)%nat).
  { intros off. destruct (size a - off >? 0).
    - exists nil, (mid a off (size a - off) :: nil).
      cbn. repeat split; auto.
    - exists nil, nil. cbn. repeat split; auto. }
  induction fuel as [ | fuel IH ]; intros off Hoff; cbn [sendLoop];
    destruct (Z.gtb_spec (size a) (M + off)) as [Hbig | Hfit];
    try apply Hend.
  - exists nil, nil. cbn. repeat split; auto.
  - destruct (Hstep off Hoff) as [Hle HP]; [ lia | ].
    destruct (IH (splitPositionAt M a off)) as (body & tail & E & Hb & Ht);
      [ lia | ].
    exists (mid a off (splitPositionAt M a off - off) :: body), tail.
    cbn [sent]. rewrite E. repeat split; auto.
Qed.

(** What holds of the chunk of every iteration and of the chunk sent after
    the loop holds of every chunk sent. *)
Lemma sendLoop_all :
  (forall off, 0 <= off -> size a > M + off ->
     off <= splitPositionAt M a off
     /\ P (mid a off (splitPositionAt M a off - off))) ->
  (forall off, 0 <= off -> size a <= M + off -> size a - off > 0 ->
     P (mid a off (size a - off))) ->
  forall fuel off, 0 <= off -> Forall P (sent (sendLoop M a fuel off)).
Proof.
  intros Hstep Hlast. induction fuel as [ | fuel IH ]; intros off Hoff;
    cbn [sendLoop];
    destruct (Z.gtb_spec (size a) (M + off)) as [Hbig | Hfit];
    try (destruct (Z.gtb_spec (size a - off) 0); cbn [sent];
         [ constructor; [ apply Hlast; lia | constructor ] | constructor ]).
  - constructor.
  - destruct (Hstep off Hoff) as [Hle HP]; [ lia | ].
    cbn [sent]. constructor; [ exact HP | apply IH; lia ].
Qed.

End ChunkShapes.

(** X1: with a frame limit of at least five bytes [sendMessage] never hands
    an empty chunk to the engine, however long it has run. *)
Theorem no_empty_chunk M T fuel :
  Forall scalar T -> 5 <= M ->
  Forall (fun c => c <> []) (sent (sendMessage M fuel T)).
Proof.
  intros HT HM. unfold sendMessage.
  apply sendLoop_all; try lia.
  - intros off Hoff Hsz.
    destruct (splitPosition_spec M T HT) with (off := off)
      as (Hsp & _ & Hlt); try lia.
    specialize (Hlt HM). split; [ lia | ].
    intros E. apply (f_equal size) in E.
    rewrite size_mid in E by lia. cbn in E. lia.
  - intros off Hoff Hfit Hpos E. apply (f_equal size) in E.
    rewrite size_mid in E by lia. cbn in E. lia.
Qed.

Lemma no_empty_chunk_witness :
  (Forall scalar fox /\ 5 <= 20)
  /\ Forall (fun c => c <> []) (sent (sendMessage 20 49 fox)).
Proof.
  assert (H1 : Forall scalar fox)
    by (repeat constructor; vm_compute; intuition discriminate).
  assert (H2 : 5 <= 20) by lia.
  split; [ auto | ].
  apply (no_empty_chunk 20 fox 49 H1 H2).
Defined.

Lemma concat_toUtf8 parts : concat (map toUtf8 parts) = toUtf8 (concat parts).
Proof.
  induction parts as [ | p parts IH ]; [ reflexivity | ].
  cbn [map concat]. rewrite IH, toUtf8_app. reflexivity.
Qed.

(** X2: with a frame limit of at least five bytes the chunks handed to the
    engine, put end to end, are the UTF-8 encoding of the message: no byte is
    lost, repeated or moved. *)
Theorem chunks_are_the_bytes M T fuel :
  Forall scalar T -> 5 <= M -> size (toUtf8 T) <= Z.of_nat fuel ->
  concat (sent (sendMessage M fuel T)) = toUtf8 T.
Proof.
  intros HT HM Hfuel.
  assert (Hret : returned (sendMessage M fuel T) = true).
  { apply sendLoop_returns; try lia; auto. }
  destruct (sendMessage_pieces M T fuel HT) as (parts & rest & -> & E & _ & Hr);
    [ lia | ].
  rewrite (Hr Hret), app_nil_r in E. rewrite concat_toUtf8. congruence.
Qed.

Lemma chunks_are_the_bytes_witness :
  (Forall scalar fox /\ 5 <= 20 /\ size (toUtf8 fox) <= Z.of_nat 49)
  /\ concat (sent (sendMessage 20 49 fox)) = toUtf8 fox.
Proof.
  assert (H1 : Forall scalar fox)
    by (repeat constructor; vm_compute; intuition discriminate).
  assert (H2 : 5 <= 20) by lia.
  assert (H3 : size (toUtf8 fox) <= Z.of_nat 49)
    by (vm_compute; discriminate).
  split; [ auto | ].
  apply (chunks_are_the_bytes 20 fox 49 H1 H2 H3).
Defined.

Lemma splitPosition_reach M T off :
  Forall scalar T -> 4 <= M -> 0 <= off -> size (toUtf8 T) > M + off ->
  M + off - Z.max 4 (Z.quot M 4 - 1) <= splitPositionAt M (toUtf8 T) off.
Proof.
  intros HT HM Hoff Hsz.
  destruct (lastCodepointStart_spec M T HT HM off Hoff Hsz) as [Hq _].
  unfold splitPositionAt.
  set (q := lastCodepointStartAt M (toUtf8 T) off) in *.
  destruct (findSplit_spec (toUtf8 T) (Z.to_nat (q - searchLimit M off)) q)
    as [[-> _] | (j & -> & Hj & _)].
  - replace (-1 <=? off) with true by (symmetry; apply Z.leb_le; lia).
    cbn [orb]. lia.
  - destruct ((j + 1 <=? off) || (j + 1 >? M + off)); [ lia | ].
    unfold searchLimit in Hj. lia.
Qed.

(** X3: with a frame limit of at least four bytes every chunk but the last
    one sent is nearly full: it has at most [M] bytes and at least [M] less
    the larger of 4 and [M / 4 - 1]. *)
Theorem chunks_are_nearly_full M T fuel :
  Forall scalar T -> 4 <= M ->
  exists body tail,
    sent (sendMessage M fuel T) = body ++ tail
    /\ Forall (fun c => M - Z.max 4 (Z.quot M 4 - 1) <= size c <= M) body
    /\ (List.length tail <= 1)%nat.
Proof.
  intros HT HM. unfold sendMessage. apply sendLoop_body; [ | lia ].
  intros off Hoff Hsz.
  destruct (splitPosition_spec M T HT HM off Hoff Hsz) as (Hsp & _ & _).
  pose proof (splitPosition_reach M T off HT HM Hoff Hsz) as Hreach.
  split; [ lia | ]. rewrite size_mid by lia. lia.
Qed.

Lemma chunks_are_nearly_full_witness :
  (Forall scalar fox /\ 4 <= 20)
  /\ exists body tail,
       sent (sendMessage 20 49 fox) = body ++ tail
       /\ Forall (fun c => 20 - Z.max 4 (Z.quot 20 4 - 1) <= size c <= 20)
                 body
       /\ (List.length tail <= 1)%nat.
Proof.
  assert (H1 : Forall scalar fox)
    by (repeat constructor; vm_compute; intuition discriminate).
  assert (H2 : 4 <= 20) by lia.
  split; [ auto | ].
  apply (chunks_are_nearly_full 20 fox 49 H1 H2).
Defined.

Lemma at_plain (a : QByteArray) i : Forall plain a -> plain (at_ a i).
Proof.
  intros H. unfold at_.
  destruct (i <? 0); [ split; [ lia | reflexivity ] | ].
  destruct (Nat.lt_ge_cases (Z.to_nat i) (List.length a)) as [Hlt | Hge].
  - rewrite Forall_forall in H. apply H. apply nth_In. exact Hlt.
  - rewrite nth_overflow by exact Hge. split; [ lia | reflexivity ].
Qed.

Lemma toUtf8_ascii T : Forall plain T -> toUtf8 T = T.
Proof.
  induction 1 as [ | c T [Hc _] _ IH ]; [ reflexivity | ].
  unfold toUtf8 in *. cbn [flat_map]. rewrite IH. unfold utf8_encode.
  replace (c <? 128) with true by (symmetry; apply Z.ltb_lt; lia).
  reflexivity.
Qed.

Lemma splitPosition_plain M (a : QByteArray) off :
  Forall plain a -> 0 <= off -> splitPositionAt M a off = M + off - 1.
Proof.
  intros Ha Hoff.
  assert (Hq : lastCodepointStartAt M a off = M + off - 1).
  { unfold lastCodepointStartAt. cbn [findCodepointStart].
    destruct (at_plain a (M + off - 1) Ha) as [Hb _].
    rewrite masked_continuation by (unfold byte_ok; lia).
    unfold continuation.
    replace (128 <=? at_ a (M + off - 1)) with false
      by (symmetry; apply Z.leb_gt; lia).
    reflexivity. }
  unfold splitPositionAt. rewrite Hq.
  destruct (findSplit_spec a
              (Z.to_nat (M + off - 1 - searchLimit M off)) (M + off - 1))
    as [[-> _] | (j & _ & _ & Hs & _)].
  - replace (-1 <=? off) with true by (symmetry; apply Z.leb_le; lia).
    reflexivity.
  - destruct (at_plain a j Ha) as [_ Hn]. congruence.
Qed.

(** X4: a message of ASCII characters without space, period, comma or hyphen
    is cut one byte short of the frame limit: every chunk but the last one
    sent has exactly [M - 1] bytes. *)
Theorem unbroken_text_leaves_one_byte M T fuel :
  Forall plain T -> 1 <= M ->
  exists body tail,
    sent (sendMessage M fuel T) = body ++ tail
    /\ Forall (fun c => size c = M - 1) body
    /\ (List.length tail <= 1)%nat.
Proof.
  intros HT HM. unfold sendMessage. rewrite toUtf8_ascii by exact HT.
  apply sendLoop_body; [ | lia ].
  intros off Hoff Hsz. rewrite splitPosition_plain by assumption.
  split; [ lia | ]. rewrite size_mid by lia. lia.
Qed.

Lemma unbroken_text_leaves_one_byte_witness :
  (Forall plain (text "abcdefghij") /\ 1 <= 4)
  /\ exists body tail,
       sent (sendMessage 4 10 (text "abcdefghij")) = body ++ tail
       /\ Forall (fun c => size c = 4 - 1) body
       /\ (List.length tail <= 1)%nat.
Proof.
  assert (H1 : Forall plain (text "abcdefghij"))
    by (repeat constructor; vm_compute; discriminate).
  assert (H2 : 1 <= 4) by lia.
  split; [ auto | ].
  apply (unbroken_text_leaves_one_byte 4 (text "abcdefghij") 10 H1 H2).
Defined.

(** * Further properties of the identifier codec *)

Lemma pairs_ind (P : list Z -> Prop) :
  P [] ->
  (forall x y l, Nat.even (List.length l) = true -> P l -> P (x :: y :: l)) ->
  forall l, Nat.even (List.length l) = true -> P l.
Proof.
  intros Hnil Hstep l.
  assert (H : (Nat.even (List.length l) = true -> P l)
              /\ (forall x, Nat.even (List.length (x :: l)) = true
                            -> P (x :: l))).
  { induction l as [ | y l [IH1 IH2] ].
    - split; [ intros _; exact Hnil | intros x Hx; discriminate ].
    - split; [ apply IH2 | ].
      intros x Hx. apply Hstep; [ exact Hx | apply IH1; exact Hx ]. }
  apply H.
Qed.

Lemma lowerHexDigit_hexChar c : lowerHexDigit c -> hexChar c = true.
Proof.
  intros Hc.
  destruct (lowerHexDigit_cases c Hc) as [E | E];
    repeat (destruct E as [-> | E]; [ reflexivity | ]); subst; reflexivity.
Qed.

Lemma fromHexLoop_two x y rest res :
  hexChar x = true -> hexChar y = true ->
  fromHexLoop (x :: y :: rest) true res
  = fromHexLoop rest true
      (Z.lor (fromHexDigit x) (Z.shiftl (fromHexDigit y) 4) :: res).
Proof.
  unfold hexChar. intros Hx Hy.
  apply negb_true_iff in Hx, Hy.
  cbn [fromHexLoop]. rewrite Hx, Hy. reflexivity.
Qed.

Lemma fromHexLoop_app p :
  Nat.even (List.length p) = true -> Forall lowerHexDigit p ->
  forall q res,
  fromHexLoop (p ++ q) true res = fromHexLoop q true (fromHexLoop p true res).
Proof.
  intros Heven. pattern p. revert p Heven. apply pairs_ind.
  - reflexivity.
  - intros x y l _ IH Hd q res.
    inversion Hd as [ | ? ? Hx Hd' ]; subst.
    inversion Hd' as [ | ? ? Hy Hl ]; subst.
    cbn [app].
    rewrite !fromHexLoop_two by (apply lowerHexDigit_hexChar; assumption).
    apply IH, Hl.
Qed.

Lemma fromHexLoop_pairs s :
  Nat.even (List.length s) = true -> Forall lowerHexDigit s ->
  forall res, fromHexLoop (rev s) true res = decodePairs s ++ res.
Proof.
  intros Heven. pattern s. revert s Heven. apply pairs_ind.
  - reflexivity.
  - intros h l r Hlen IH Hd res.
    inversion Hd as [ | ? ? Hh Hd' ]; subst.
    inversion Hd' as [ | ? ? Hl Hr ]; subst.
    cbn [rev]. rewrite <- app_assoc. cbn [app].
    rewrite fromHexLoop_app;
      [ | rewrite length_rev; exact Hlen | apply Forall_rev; exact Hr ].
    rewrite IH by exact Hr.
    rewrite fromHexLoop_two by (apply lowerHexDigit_hexChar; assumption).
    reflexivity.
Qed.

Lemma toHex_pair h l :
  lowerHexDigit h -> lowerHexDigit l ->
  toHex [Z.lor (fromHexDigit l) (Z.shiftl (fromHexDigit h) 4)] = [h; l].
Proof.
  intros Hh Hl.
  destruct (lowerHexDigit_cases h Hh) as [E | E];
    repeat (destruct E as [-> | E]); subst;
    destruct (lowerHexDigit_cases l Hl) as [E' | E'];
    repeat (destruct E' as [-> | E']); subst; reflexivity.
Qed.

Lemma toHex_decodePairs s :
  Nat.even (List.length s) = true -> Forall lowerHexDigit s ->
  toHex (decodePairs s) = s.
Proof.
  intros Heven. pattern s. revert s Heven. apply pairs_ind.
  - reflexivity.
  - intros h l r _ IH Hd.
    inversion Hd as [ | ? ? Hh Hd' ]; subst.
    inversion Hd' as [ | ? ? Hl Hr ]; subst.
    cbn [decodePairs].
    change (toHex (?b :: ?bs)) with (toHex [b] ++ toHex bs).
    rewrite toHex_pair by assumption. rewrite IH by exact Hr. reflexivity.
Qed.

Lemma hexChar_cases c :
  hexChar c = true -> 48 <= c <= 57 \/ 97 <= c <= 102 \/ 65 <= c <= 70.
Proof.
  unfold hexChar, fromHexDigit. intros H.
  destruct ((48 <=? c) && (c <=? 57)) eqn:E1;
    [ bool_hyps; lia | ].
  destruct ((97 <=? c) && (c <=? 102)) eqn:E2;
    [ apply andb_prop in E2; destruct E2; bool_hyps; lia | ].
  destruct ((65 <=? c) && (c <=? 70)) eqn:E3;
    [ apply andb_prop in E3; destruct E3; bool_hyps; lia | ].
  discriminate.
Qed.

Lemma hexChar_lowered c :
  hexChar c = true ->
  lowerHexDigit (latin1Char (lowerChar c))
  /\ upperChar (latin1Char (lowerChar c)) = upperChar c.
Proof.
  intros H. apply hexChar_cases in H.
  unfold lowerHexDigit, latin1Char, lowerChar, upperChar.
  split_ifs; bool_hyps; lia.
Qed.

Lemma even_of_nat n : Z.even (Z.of_nat n) = Nat.even n.
Proof.
  destruct (Nat.even n) eqn:E.
  - apply Nat.even_spec in E. destruct E as [k ->].
    rewrite Nat2Z.inj_mul, Z.even_mul. reflexivity.
  - destruct (Z.even (Z.of_nat n)) eqn:E'; [ | reflexivity ].
    apply Z.even_spec in E'. destruct E' as [k Hk].
    assert (n = 2 * Z.to_nat k)%nat by lia. subst n.
    rewrite Nat.even_mul in E. discriminate.
Qed.

(** X5: a text of hexadecimal digits, an even number of them, decodes to
    bytes whose text form is the same digits with the letters in upper case:
    [toString] after [fromString] puts an identifier in its canonical form. *)
Theorem identifier_text_is_canonical (data : QString) :
  forallb hexChar data = true -> Z.even (size data) = true ->
  CData.toString (CData.fromString data) (size (CData.fromString data))
  = toUpper data.
Proof.
  intros Hhex Heven.
  rewrite forallb_forall in Hhex.
  set (s := toLatin1 (toLower data)).
  assert (Hs : Forall lowerHexDigit s).
  { unfold s, toLatin1, toLower. rewrite map_map. apply Forall_map.
    apply Forall_forall. intros c Hc. apply hexChar_lowered, Hhex, Hc. }
  assert (Hlen : Nat.even (List.length s) = true).
  { unfold s, toLatin1, toLower. rewrite !length_map.
    rewrite <- even_of_nat. exact Heven. }
  assert (E : CData.fromString data = decodePairs s).
  { unfold CData.fromString, fromHex. fold s.
    rewrite fromHexLoop_pairs by assumption. apply app_nil_r. }
  unfold CData.toString. rewrite E.
  unfold size at 1. rewrite Nat2Z.id, firstn_all.
  rewrite toHex_decodePairs by assumption.
  unfold s, toLatin1, toLower, toUpper. rewrite !map_map.
  apply map_ext_in. intros c Hc. apply hexChar_lowered, Hhex, Hc.
Qed.

Lemma identifier_text_is_canonical_witness :
  (forallb hexChar (text "0a1Bff") = true
   /\ Z.even (size (text "0a1Bff")) = true)
  /\ CData.toString (CData.fromString (text "0a1Bff"))
       (size (CData.fromString (text "0a1Bff")))
     = toUpper (text "0a1Bff").
Proof.
  assert (H1 : forallb hexChar (text "0a1Bff") = true) by reflexivity.
  assert (H2 : Z.even (size (text "0a1Bff")) = true) by reflexivity.
  split; [ auto | ].
  apply (identifier_text_is_canonical (text "0a1Bff") H1 H2).
Defined.

(** X6: the constructor of an identifier copies past the end of its buffer
    exactly when the text holds more than twice as many hexadecimal digits as
    the buffer has bytes; characters that are no digits do not count. *)
Theorem buffer_overrun_condition (data : QString) (byteSize : Z) :
  CData.new data byteSize = None
  <-> 2 * byteSize < size (filter hexChar data).
Proof.
  unfold CData.new. rewrite fromString_size.
  pose proof (size_nonneg (filter hexChar data)) as Hn.
  destruct (Z.leb_spec ((size (filter hexChar data) + 1) / 2) byteSize)
    as [Hle | Hgt]; split; intros H; try discriminate; try reflexivity.
  - exfalso. Z.div_mod_to_equations. lia.
  - Z.div_mod_to_equations. lia.
Qed.

Lemma repeat_all_written (k : nat) (l : list (option Z)) :
  Forall (fun x => x <> None) (l ++ repeat None k) -> k = 0%nat.
Proof.
  intros H. apply Forall_app in H. destruct H as [_ H].
  destruct k as [ | k ]; [ reflexivity | ].
  cbn [repeat] in H. inversion H as [ | ? ? Hx _ ]. congruence.
Qed.

(** X7: when the constructor of an identifier stays within its buffer, the
    buffer it hands to the engine is written in full exactly when the text
    holds [2 * byteSize] hexadecimal digits or one less; with fewer digits
    bytes of the buffer are left as allocated. *)
Theorem buffer_written_in_full (data : QString) (byteSize : Z)
    (c : CData.t) :
  CData.new data byteSize = Some c ->
  (Forall (fun x => x <> None) (CData.data c)
   <-> 2 * byteSize - 1 <= size (filter hexChar data)).
Proof.
  unfold CData.new.
  pose proof (fromString_size data) as Hsize.
  pose proof (size_nonneg (filter hexChar data)) as Hn.
  destruct (Z.leb_spec (size (CData.fromString data)) byteSize)
    as [Hle | Hgt]; [ | discriminate ].
  intros E. injection E as <-. cbn [CData.data]. split.
  - intros H. apply repeat_all_written in H.
    Z.div_mod_to_equations. lia.
  - intros H.
    replace (Z.to_nat (byteSize - size (CData.fromString data))) with 0%nat
      by (Z.div_mod_to_equations; lia).
    cbn [repeat]. rewrite app_nil_r. apply Forall_map.
    apply Forall_forall. intros x _. discriminate.
Qed.

Lemma buffer_written_in_full_witness :
  CData.new (text "AB") 32
  = Some {| CData.data := Some 171 :: repeat None 31; CData.size_ := 1 |}
  /\ (Forall (fun x => x <> None)
        (CData.data
           {| CData.data := Some 171 :: repeat None 31; CData.size_ := 1 |})
      <-> 2 * 32 - 1 <= size (filter hexChar (text "AB"))).
Proof.
  assert (H1 : CData.new (text "AB") 32
               = Some {| CData.data := Some 171 :: repeat None 31;
                         CData.size_ := 1 |}) by reflexivity.
  split; [ exact H1 | ].
  apply (buffer_written_in_full (text "AB") 32 _ H1).
Defined.

Lemma firstn_toHex (n : nat) (a : QByteArray) :
  firstn (2 * n) (toHex a) = toHex (firstn n a).
Proof.
  revert a. induction n as [ | n IH ]; intros a; [ reflexivity | ].
  destruct a as [ | b a ]; [ reflexivity | ].
  replace (2 * S n)%nat with (S (S (2 * n))) by lia.
  unfold toHex in *. cbn [flat_map app firstn]. rewrite IH. reflexivity.
Qed.

(** X8: when the address given to [requestFriendship] is the text form of
    the bytes of an address, the user id it reports, with [friendAdded] or
    with [failedToAddFriend], is the text form of the first
    [TOX_CLIENT_ID_SIZE] of those bytes; it reports failure exactly when the
    engine answers a negative number. *)
Theorem requested_friend_is_named_by_key
    TOX_CLIENT_ID_SIZE TOX_FRIEND_ADDRESS_SIZE (address : QByteArray)
    (friendId : Z) :
  0 <= TOX_CLIENT_ID_SIZE <= TOX_FRIEND_ADDRESS_SIZE ->
  requestFriendship TOX_CLIENT_ID_SIZE friendId
    (CFriendAddress.toString TOX_FRIEND_ADDRESS_SIZE address)
  = if friendId <? 0
    then [failedToAddFriend (CUserId.toString TOX_CLIENT_ID_SIZE address)]
    else [signal (friendAdded friendId
                    (CUserId.toString TOX_CLIENT_ID_SIZE address))].
Proof.
  intros Hsize.
  assert (E : QString_mid
                (CFriendAddress.toString TOX_FRIEND_ADDRESS_SIZE address)
                0 (TOX_CLIENT_ID_SIZE * 2)
              = CUserId.toString TOX_CLIENT_ID_SIZE address).
  { unfold QString_mid, CFriendAddress.toString, CUserId.toString,
      CData.toString, toUpper.
    replace (TOX_CLIENT_ID_SIZE * 2 <? 0) with false
      by (symmetry; apply Z.ltb_ge; lia).
    cbn [Z.to_nat skipn]. rewrite firstn_map. f_equal.
    replace (Z.to_nat (TOX_CLIENT_ID_SIZE * 2))
      with (2 * Z.to_nat TOX_CLIENT_ID_SIZE)%nat by lia.
    rewrite firstn_toHex, firstn_firstn. f_equal. f_equal. lia. }
  unfold requestFriendship. rewrite E. reflexivity.
Qed.

Lemma requested_friend_is_named_by_key_witness :
  0 <= 2 <= 3
  /\ requestFriendship 2 (-3) (CFriendAddress.toString 3 [1; 171; 255])
     = if -3 <? 0
       then [failedToAddFriend (CUserId.toString 2 [1; 171; 255])]
       else [signal (friendAdded (-3) (CUserId.toString 2 [1; 171; 255]))].
Proof.
  assert (H1 : 0 <= 2 <= 3) by lia.
  split; [ exact H1 | ].
  apply (requested_friend_is_named_by_key 2 3 [1; 171; 255] (-3) H1).
Defined.

(** * Text buffers *)

Lemma length_nonneg s : 0 <= CString.length s.
Proof.
  induction s as [ | c s IH ]; cbn [CString.length fold_right]; [ lia | ].
  fold (CString.length s). destruct (c <? 65536); lia.
Qed.

Lemma toUtf8_within_three s : size (toUtf8 s) <= 3 * CString.length s.
Proof.
  induction s as [ | c s IH ]; [ cbn; lia | ].
  unfold toUtf8 in *. cbn [flat_map CString.length fold_right].
  fold (CString.length s). rewrite size_app.
  assert (size (utf8_encode c) <= 3 * (if c <? 65536 then 1 else 2));
    [ | lia ].
  unfold utf8_encode.
  destruct (Z.ltb_spec c 128); [ | destruct (Z.ltb_spec c 2048);
    [ | destruct (Z.ltb_spec c 65536) ] ];
    repeat match goal with
    | |- context [?x <? 65536] => destruct (Z.ltb_spec x 65536)
    end; cbn; lia.
Qed.

Lemma encoding_fits_buffer MAX (string : QString) :
  3 <= MAX -> size (toUtf8 string) <= CString.length string * MAX.
Proof.
  intros HM.
  pose proof (toUtf8_within_three string) as H3.
  pose proof (length_nonneg string) as H0.
  nia.
Qed.

(** X9: whatever the text, the buffer that the constructor of [CString]
    allocates is large enough for its UTF-8 encoding, provided the header's
    [MAX_SIZE_OF_UTF8_ENCODED_CHARACTER] is at least 3: the copy never runs
    past the buffer, and what follows the encoding in it is zero. *)
Theorem text_buffer_is_large_enough MAX (string : QString) :
  3 <= MAX ->
  CString.new MAX string
  = Some {| CString.cString :=
              toUtf8 string
              ++ repeat 0
                   (Z.to_nat
                      (CString.length string * MAX - size (toUtf8 string)));
            CString.cStringSize := size (toUtf8 string) mod 65536 |}.
Proof.
  intros HM. unfold CString.new, CString.fromString.
  replace (size (toUtf8 string) <=? CString.length string * MAX) with true
    by (symmetry; apply Z.leb_le, encoding_fits_buffer, HM).
  reflexivity.
Qed.

Lemma text_buffer_is_large_enough_witness :
  3 <= 3
  /\ CString.new 3 [8364; 128512; 65]
     = Some {| CString.cString :=
                 toUtf8 [8364; 128512; 65]
                 ++ repeat 0
                      (Z.to_nat
                         (CString.length [8364; 128512; 65] * 3
                          - size (toUtf8 [8364; 128512; 65])));
               CString.cStringSize :=
                 size (toUtf8 [8364; 128512; 65]) mod 65536 |}.
Proof.
  assert (H1 : 3 <= 3) by lia.
  split; [ exact H1 | ].
  apply (text_buffer_is_large_enough 3 [8364; 128512; 65] H1).
Defined.

(** X10: a text whose UTF-8 encoding has fewer than 65536 bytes comes back
    from a [CString]: the object reports the encoded length, and decoding its
    buffer at that size gives the text, less a byte-order mark U+FEFF at its
    start, which [QString::fromUtf8] skips; a text that does not begin with
    U+FEFF comes back unchanged. *)
Theorem text_buffer_round_trip MAX (string : QString) :
  Forall scalar string -> size (toUtf8 string) < 65536 -> 3 <= MAX ->
  exists c,
    CString.new MAX string = Some c
    /\ CString.cStringSize c = size (toUtf8 string)
    /\ CString.toString (CString.cString c) (CString.cStringSize c)
       = Some (dropBom string)
    /\ (hd 0 string <> 65279 ->
        CString.toString (CString.cString c) (CString.cStringSize c)
        = Some string).
Proof.
  intros Hs Hsmall HM.
  pose proof (size_nonneg (toUtf8 string)) as Hn.
  assert (Hdec : CString.toString
                   (toUtf8 string
                    ++ repeat 0
                         (Z.to_nat
                            (CString.length string * MAX
                             - size (toUtf8 string))))
                   (size (toUtf8 string) mod 65536)
                 = Some (dropBom string)).
  { unfold CString.toString.
    rewrite !(Z.mod_small (size (toUtf8 string)) 65536) by lia.
    unfold size. rewrite Nat2Z.id.
    rewrite firstn_app, firstn_all, Nat.sub_diag. cbn [firstn].
    rewrite app_nil_r. apply fromUtf8_toUtf8, Hs. }
  eexists. split; [ | split; [ | split ] ].
  - unfold CString.new, CString.fromString.
    replace (size (toUtf8 string) <=? CString.length string * MAX) with true
      by (symmetry; apply Z.leb_le, encoding_fits_buffer, HM).
    reflexivity.
  - cbn [CString.cStringSize]. apply Z.mod_small. lia.
  - cbn [CString.cStringSize CString.cString]. exact Hdec.
  - intros Hhd. cbn [CString.cStringSize CString.cString]. rewrite Hdec.
    destruct string as [ | c r ]; [ reflexivity | ].
    cbn [hd] in Hhd. cbn [dropBom].
    apply Z.eqb_neq in Hhd. rewrite Hhd. reflexivity.
Qed.

Lemma text_buffer_round_trip_witness :
  (Forall scalar [8364; 128512; 65]
   /\ size (toUtf8 [8364; 128512; 65]) < 65536 /\ 3 <= 4)
  /\ exists c,
       CString.new 4 [8364; 128512; 65] = Some c
       /\ CString.cStringSize c = size (toUtf8 [8364; 128512; 65])
       /\ CString.toString (CString.cString c) (CString.cStringSize c)
          = Some (dropBom [8364; 128512; 65])
       /\ (hd 0 [8364; 128512; 65] <> 65279 ->
           CString.toString (CString.cString c) (CString.cStringSize c)
           = Some [8364; 128512; 65]).
Proof.
  assert (H1 : Forall scalar [8364; 128512; 65])
    by (repeat constructor; vm_compute; intuition discriminate).
  assert (H2 : size (toUtf8 [8364; 128512; 65]) < 65536) by reflexivity.
  assert (H3 : 3 <= 4) by lia.
  split; [ auto | ].
  apply (text_buffer_round_trip 4 [8364; 128512; 65] H1 H2 H3).
Defined.

(** * Further properties of the connectivity check *)

(** X11: whatever the engine answers tick after tick, the connectivity
    checks emit [connected] and [disconnected] in turns, never the same one
    twice in a row, beginning with the opposite of the remembered state, and
    as many signals as there are changes in the answers. *)
Theorem connectivity_signals_take_turns answers isConnected :
  alternating (negb isConnected) (checkConnections answers isConnected) = true
  /\ List.length (checkConnections answers isConnected)
     = changes isConnected answers.
Proof.
  revert isConnected. induction answers as [ | r answers IH ];
    intros isConnected; [ split; reflexivity | ].
  cbn [checkConnections changes]. unfold checkConnection.
  destruct (IH true) as [IHt Lt]. destruct (IH false) as [IHf Lf].
  cbn [negb] in IHt, IHf.
  destruct (r =? 0), isConnected;
    cbn [negb andb app Bool.eqb Nat.add alternating List.length];
    rewrite ?IHt, ?IHf, ?Lt, ?Lf; split; reflexivity.
Qed.

(** * Further properties of the friend list import *)

Lemma firstn_subset (n : nat) (l : list Z) x : In x (firstn n l) -> In x l.
Proof.
  revert l. induction n as [ | n IH ]; intros l H; [ destruct H | ].
  destruct l as [ | y l ]; [ destruct H | ].
  cbn [firstn] in H. destruct H as [-> | H]; [ left; reflexivity | ].
  right. apply IH, H.
Qed.

Section FriendImport.

Variable TOX_CLIENT_ID_SIZE : Z.
Variable tox : Tox.

Lemma loadFriend_length f :
  (List.length (loadFriend TOX_CLIENT_ID_SIZE tox f) <= 4)%nat.
Proof.
  unfold loadFriend, loadUsername, loadStatusMessage, checkLastOnline.
  destruct (tox_get_client_id tox f) as [ret clientId].
  destruct (tox_get_name tox f) as [r1 name].
  destruct (tox_get_status_message tox f _) as [r2 message].
  destruct (ret =? 0), (tox_get_name_size tox f >? 0),
    (r1 =? tox_get_name_size tox f),
    (tox_get_status_message_size tox f >? 0),
    (r2 =? tox_get_status_message_size tox f),
    (0 <? tox_get_last_online tox f)%N; cbn; lia.
Qed.

Lemma loadFriend_rank f :
  Forall (fun s => (signalRank s <= 3)%nat)
         (loadFriend TOX_CLIENT_ID_SIZE tox f).
Proof.
  unfold loadFriend, loadUsername, loadStatusMessage, checkLastOnline.
  destruct (tox_get_client_id tox f) as [ret clientId].
  destruct (tox_get_name tox f) as [r1 name].
  destruct (tox_get_status_message tox f _) as [r2 message].
  destruct (ret =? 0), (tox_get_name_size tox f >? 0),
    (r1 =? tox_get_name_size tox f),
    (tox_get_status_message_size tox f >? 0),
    (r2 =? tox_get_status_message_size tox f),
    (0 <? tox_get_last_online tox f)%N; cbn [app];
    repeat constructor.
Qed.

Lemma flat_map_length_bound (ids : list Z) :
  (List.length (flat_map (loadFriend TOX_CLIENT_ID_SIZE tox) ids)
   <= 4 * List.length ids)%nat.
Proof.
  induction ids as [ | f ids IH ]; [ cbn; lia | ].
  cbn [flat_map]. rewrite length_app. cbn [List.length].
  pose proof (loadFriend_length f). lia.
Qed.

(** X12: [loadFriends] emits nothing but the four signals of the import,
    each about a friend of the engine's list, and at most four for each
    friend of the list. *)
Theorem import_signals_are_bounded :
  Forall (fun s => (signalRank s <= 3)%nat
                   /\ exists f, In f (friendlist tox)
                                /\ signalFriend s = Some f)
         (loadFriends TOX_CLIENT_ID_SIZE tox)
  /\ (List.length (loadFriends TOX_CLIENT_ID_SIZE tox)
      <= 4 * List.length (friendlist tox))%nat.
Proof.
  unfold loadFriends.
  destruct (tox_count_friendlist tox >? 0); [ | split; [ constructor | cbn; lia ] ].
  set (ids := firstn _ (friendlist tox)).
  assert (Hin : forall f, In f ids -> In f (friendlist tox)).
  { intros f Hf. unfold ids in Hf. eapply firstn_subset, Hf. }
  split.
  - apply Forall_forall. intros s Hs.
    apply in_flat_map in Hs. destruct Hs as (f & Hf & Hs).
    split.
    + pose proof (loadFriend_rank f) as Hr.
      rewrite Forall_forall in Hr. apply Hr, Hs.
    + exists f. split; [ apply Hin, Hf | ].
      pose proof (loadFriend_about TOX_CLIENT_ID_SIZE tox f) as Ha.
      rewrite Forall_forall in Ha. apply Ha, Hs.
  - pose proof (flat_map_length_bound ids) as Hb.
    assert (List.length ids <= List.length (friendlist tox))%nat
      by (unfold ids; rewrite length_firstn; lia).
    lia.
Qed.


End FriendImport.


(** * Status of a friend *)

(** X14: the connection-status callback emits the change of status first and
    always; the time last seen follows it exactly when the friend went
    offline (status 0) and the engine knows a time, so a friend coming online
    never yields a last-seen signal. *)
Theorem last_seen_only_when_going_offline tox friendId status :
  exists rest,
    onConnectionStatusChanged tox friendId status
    = friendStatusChanged friendId (if status =? 0 then Offline else Online)
      :: rest
    /\ (rest <> [] <->
        status = 0 /\ tox_get_last_online tox friendId <> 0%N)
    /\ Forall (fun s => signalRank s = 3%nat
                        /\ signalFriend s = Some friendId) rest
    /\ (List.length rest <= 1)%nat.
Proof.
  unfold onConnectionStatusChanged, checkLastOnline.
  destruct (Z.eqb_spec status 0) as [-> | Hne].
  - destruct (N.ltb_spec 0 (tox_get_last_online tox friendId)) as [Hlt | Hge].
    + eexists. split; [ reflexivity | ]. split; [ | split ].
      * split; [ intros _; split; [ reflexivity | lia ] | discriminate ].
      * constructor; [ split; reflexivity | constructor ].
      * cbn. lia.
    + exists nil. split; [ reflexivity | ]. split; [ | split ].
      * split; [ intros H; exfalso; apply H; reflexivity | ].
        intros [_ H]. lia.
      * constructor.
      * cbn. lia.
  - exists nil. split; [ reflexivity | ]. split; [ | split ].
    + split; [ intros H; exfalso; apply H; reflexivity | ].
      intros [H _]. contradiction.
    + constructor.
    + cbn. lia.
Qed.

(** X15: when the three user-status constants of the engine differ from one
    another, a status other than [Offline] handed to [setStatus] reaches the
    engine as the value that a peer's [onUserStatusChanged] turns back into
    the same status. *)
Theorem status_survives_the_engine
    TOX_USERSTATUS_NONE TOX_USERSTATUS_AWAY TOX_USERSTATUS_BUSY
    TOX_USERSTATUS_INVALID friendId status :
  TOX_USERSTATUS_NONE <> TOX_USERSTATUS_AWAY ->
  TOX_USERSTATUS_NONE <> TOX_USERSTATUS_BUSY ->
  TOX_USERSTATUS_AWAY <> TOX_USERSTATUS_BUSY ->
  status <> Offline ->
  onUserStatusChanged TOX_USERSTATUS_NONE TOX_USERSTATUS_AWAY
    TOX_USERSTATUS_BUSY friendId
    (userstatusOf TOX_USERSTATUS_NONE TOX_USERSTATUS_AWAY
       TOX_USERSTATUS_BUSY TOX_USERSTATUS_INVALID status)
  = [friendStatusChanged friendId status].
Proof.
  intros H1 H2 H3 Hs. unfold onUserStatusChanged.
  destruct status; cbn [userstatusOf]; try congruence.
  - rewrite Z.eqb_refl. reflexivity.
  - replace (TOX_USERSTATUS_AWAY =? TOX_USERSTATUS_NONE) with false
      by (symmetry; apply Z.eqb_neq; congruence).
    rewrite Z.eqb_refl. reflexivity.
  - replace (TOX_USERSTATUS_BUSY =? TOX_USERSTATUS_NONE) with false
      by (symmetry; apply Z.eqb_neq; congruence).
    replace (TOX_USERSTATUS_BUSY =? TOX_USERSTATUS_AWAY) with false
      by (symmetry; apply Z.eqb_neq; congruence).
    rewrite Z.eqb_refl. reflexivity.
Qed.

Lemma status_survives_the_engine_witness :
  (0 <> 1 /\ 0 <> 2 /\ 1 <> 2 /\ Busy <> Offline)
  /\ onUserStatusChanged 0 1 2 7 (userstatusOf 0 1 2 3 Busy)
     = [friendStatusChanged 7 Busy].
Proof.
  assert (H1 : 0 <> 1) by lia.
  assert (H2 : 0 <> 2) by lia.
  assert (H3 : 1 <> 2) by lia.
  assert (H4 : Busy <> Offline) by discriminate.
  split; [ auto | ].
  apply (status_survives_the_engine 0 1 2 3 7 Busy H1 H2 H3 H4).
Defined.

(** * Saving and loading the configuration *)

(** X16: a state of 1 to 2^31 - 1 bytes that [saveConfiguration] saves, the
    directory being there or made, the file opened and committed, is what
    [loadConfiguration] then hands to [tox_load], byte for byte, before it
    imports the friends of the engine so loaded. *)
Theorem saved_state_is_loaded TOX_CLIENT_ID_SIZE
    (tox_load : Tox -> QByteArray -> Tox) tox (saved : QByteArray) d :
  0 < size saved <= 2147483647 ->
  directoryExists d = true \/ mkpathSucceeds d = true ->
  openForWriting d = true -> commitSucceeds d = true ->
  openForReading d = true ->
  file (saveConfiguration saved d) = Some saved
  /\ loadConfiguration TOX_CLIENT_ID_SIZE tox_load tox
       (saveConfiguration saved d)
     = (tox_load tox saved,
        loadFriends TOX_CLIENT_ID_SIZE (tox_load tox saved)).
Proof.
  intros Hsize Hdir Hw Hc Hr.
  assert (Es : tox_size saved = size saved)
    by (unfold tox_size; apply Z.mod_small; lia).
  assert (E : saveConfiguration saved d = withFile (withDirectory d) saved).
  { unfold saveConfiguration.
    replace (negb (directoryExists d) && negb (mkpathSucceeds d)) with false
      by (destruct Hdir as [-> | ->]; destruct (directoryExists d);
          reflexivity).
    cbn [withDirectory openForWriting commitSucceeds]. rewrite Hw, Hc, Es.
    cbn [negb].
    replace (size saved >? 0) with true
      by (symmetry; rewrite Z.gtb_ltb; apply Z.ltb_lt; lia).
    replace (size saved <=? 2147483647) with true
      by (symmetry; apply Z.leb_le; lia).
    cbn [andb]. unfold size. rewrite Nat2Z.id, firstn_all. reflexivity. }
  rewrite E. split; [ reflexivity | ].
  unfold loadConfiguration. cbn [withFile withDirectory file openForReading].
  rewrite Hr. cbn [negb].
  replace (size saved >? 0) with true
    by (symmetry; rewrite Z.gtb_ltb; apply Z.ltb_lt; lia).
  reflexivity.
Qed.

Lemma saved_state_is_loaded_witness :
  (0 < size [5; 9] <= 2147483647
   /\ (directoryExists freshDisk = true \/ mkpathSucceeds freshDisk = true)
   /\ openForWriting freshDisk = true /\ commitSucceeds freshDisk = true
   /\ openForReading freshDisk = true)
  /\ file (saveConfiguration [5; 9] freshDisk) = Some [5; 9]
  /\ loadConfiguration 2 loadAsFriends twoFriends
       (saveConfiguration [5; 9] freshDisk)
     = (loadAsFriends twoFriends [5; 9],
        loadFriends 2 (loadAsFriends twoFriends [5; 9])).
Proof.
  assert (H1 : 0 < size [5; 9] <= 2147483647)
    by (vm_compute; split; [ reflexivity | discriminate ]).
  assert (H2 : directoryExists freshDisk = true
               \/ mkpathSucceeds freshDisk = true)
    by (right; reflexivity).
  assert (H3 : openForWriting freshDisk = true) by reflexivity.
  assert (H4 : commitSucceeds freshDisk = true) by reflexivity.
  assert (H5 : openForReading freshDisk = true) by reflexivity.
  split; [ auto | ].
  apply (saved_state_is_loaded 2 loadAsFriends twoFriends [5; 9] freshDisk
           H1 H2 H3 H4 H5).
Defined.

(** X17: an engine state of no bytes, or of more than 2^31 - 1 bytes, is not
    written: after [saveConfiguration] the file is as it was before, an
    earlier state in it is kept. *)
Theorem empty_state_is_not_written (saved : QByteArray) d :
  tox_size saved = 0 \/ 2147483647 < tox_size saved ->
  file (saveConfiguration saved d) = file d.
Proof.
  intros Hsize. unfold saveConfiguration.
  destruct (negb (directoryExists d) && negb (mkpathSucceeds d));
    [ reflexivity | ].
  destruct (negb (openForWriting (withDirectory d))); [ reflexivity | ].
  replace ((tox_size saved >? 0) && (tox_size saved <=? 2147483647))
    with false; [ reflexivity | ].
  symmetry. apply andb_false_iff.
  destruct Hsize as [-> | Hbig]; [ left; reflexivity | right ].
  apply Z.leb_gt. exact Hbig.
Qed.

Lemma empty_state_is_not_written_witness :
  (tox_size [] = 0 \/ 2147483647 < tox_size [])
  /\ file (saveConfiguration [] (withFile freshDisk [5; 9]))
     = file (withFile freshDisk [5; 9]).
Proof.
  assert (H1 : tox_size [] = 0 \/ 2147483647 < tox_size [])
    by (left; reflexivity).
  split; [ exact H1 | ].
  apply (empty_state_is_not_written [] (withFile freshDisk [5; 9]) H1).
Defined.

(** * Starting the core *)

(** X18: [start] emits [failedToStart], and nothing else, exactly when the
    engine cannot be created with the IPv6 setting nor, if IPv6 and the IPv4
    fallback are both enabled, without IPv6.  Otherwise, with the engine
    created at the first attempt, or at the second, made without IPv6, it
    emits the signals of [loadConfiguration] run on that engine (the friend
    import), none of them [failedToStart], and then, last and once,
    [friendAddressGenerated] with the text form of the address that
    [tox_get_address] gives for the engine as [loadConfiguration] left it. *)
Theorem start_fails_or_announces TOX_CLIENT_ID_SIZE TOX_FRIEND_ADDRESS_SIZE
    (tox_load : Tox -> QByteArray -> Tox) (tox_get_address : Tox -> QByteArray)
    (isIPv6Enabled isIPv4FallbackEnabled : bool)
    (tox_new : bool -> option Tox) d :
  let events :=
    start TOX_CLIENT_ID_SIZE TOX_FRIEND_ADDRESS_SIZE tox_load tox_get_address
      isIPv6Enabled isIPv4FallbackEnabled tox_new d in
  let cannotCreate :=
    tox_new isIPv6Enabled = None
    /\ (isIPv6Enabled && isIPv4FallbackEnabled = true ->
        tox_new false = None) in
  let announces (tox : Tox) :=
    events
    = map signal (snd (loadConfiguration TOX_CLIENT_ID_SIZE tox_load tox d))
      ++ [friendAddressGenerated
            (CFriendAddress.toString TOX_FRIEND_ADDRESS_SIZE
               (tox_get_address
                  (fst (loadConfiguration TOX_CLIENT_ID_SIZE tox_load
                          tox d))))] in
  (cannotCreate -> events = [failedToStart])
  /\ (forall tox, tox_new isIPv6Enabled = Some tox -> announces tox)
  /\ (forall tox,
        tox_new isIPv6Enabled = None ->
        isIPv6Enabled && isIPv4FallbackEnabled = true ->
        tox_new false = Some tox -> announces tox)
  /\ (In failedToStart events <-> cannotCreate).
Proof.
  cbv zeta. unfold start.
  assert (Hmap : forall signals x,
            ~ In failedToStart
                (map signal signals ++ [friendAddressGenerated x])).
  { intros signals x H. apply in_app_or in H. destruct H as [H | H].
    - apply in_map_iff in H. destruct H as (s & Hs & _). discriminate.
    - destruct H as [H | []]. discriminate. }
  destruct (tox_new isIPv6Enabled) as [tox | ] eqn:E1.
  - destruct (loadConfiguration _ _ tox d) as [tox' signals] eqn:El.
    split; [ | split; [ | split; [ | split ] ] ].
    + intros [H _]. discriminate.
    + intros t Ht. injection Ht as <-. rewrite El. reflexivity.
    + intros t Ht. discriminate.
    + intros H. exfalso. exact (Hmap _ _ H).
    + intros [H _]. discriminate.
  - destruct (isIPv6Enabled && isIPv4FallbackEnabled) eqn:Efb.
    + destruct (tox_new false) as [tox | ] eqn:E2.
      * destruct (loadConfiguration _ _ tox d) as [tox' signals] eqn:El.
        split; [ | split; [ | split; [ | split ] ] ].
        -- intros [_ H]. specialize (H eq_refl). discriminate.
        -- intros t Ht. discriminate.
        -- intros t _ _ Ht. injection Ht as <-. rewrite El. reflexivity.
        -- intros H. exfalso. exact (Hmap _ _ H).
        -- intros [_ H]. specialize (H eq_refl). discriminate.
      * split; [ | split; [ | split; [ | split ] ] ].
        -- intros _. reflexivity.
        -- intros t Ht. discriminate.
        -- intros t _ _ Ht. discriminate.
        -- intros _. split; auto.
        -- intros _. left. reflexivity.
    + split; [ | split; [ | split; [ | split ] ] ].
      * intros _. reflexivity.
      * intros t Ht. discriminate.
      * intros t _ Ht. discriminate.
      * intros _. split; [ reflexivity | discriminate ].
      * intros _. left. reflexivity.
Qed.

Lemma start_fails_or_announces_witness :
  (onlyWithoutIPv6 true = None /\ true && true = true
   /\ onlyWithoutIPv6 false = Some twoFriends)
  /\ start 2 3 loadAsFriends (fun _ => [1; 171; 255]) true true
       onlyWithoutIPv6 (withFile freshDisk [5; 9])
     = map signal (snd (loadConfiguration 2 loadAsFriends twoFriends
                          (withFile freshDisk [5; 9])))
       ++ [friendAddressGenerated
             (CFriendAddress.toString 3
                ((fun _ => [1; 171; 255])
                   (fst (loadConfiguration 2 loadAsFriends twoFriends
                           (withFile freshDisk [5; 9])))))].
Proof.
  assert (H1 : onlyWithoutIPv6 true = None) by reflexivity.
  assert (H2 : true && true = true) by reflexivity.
  assert (H3 : onlyWithoutIPv6 false = Some twoFriends) by reflexivity.
  split; [ auto | ].
  apply (proj1 (proj2 (proj2
           (start_fails_or_announces 2 3 loadAsFriends
              (fun _ => [1; 171; 255]) true true onlyWithoutIPv6
              (withFile freshDisk [5; 9]))))
           twoFriends H1 H2 H3).
Defined.
